(** * The timestamp oracle of server/tso/tso.go

    A shallow embedding of [TimestampOracle] and its methods, and the
    properties of the allocator that follow from the code.

    Conventions.
    - An instant ([time.Time]) is the number of nanoseconds since the Unix
      epoch, a [time.Duration] a number of nanoseconds; both are integers
      without a bound.  The [int64] counter of a snapshot wraps as in Go.
    - The heap of [atomicObject]s is a list, a pointer is an index into it,
      [nil] is [None].  Objects are never freed, every [&atomicObject{...}]
      appends a cell.
    - What the code reads from outside (the wall clock, the outcome of an etcd
      transaction, whether the lease is still valid, what other goroutines do
      while this one sleeps or waits) is an argument of the method.
    - A method is a computation in the monad [M]: it takes the world and either
      returns a value and the new world or panics. *)

From Stdlib Require Import ZArith Lia Bool String.
From stdpp Require Import base option list.

Local Open Scope Z_scope.

(** ** Time *)

Definition Time := Z.
Definition Duration := Z.

Definition Millisecond : Duration := 1000000.
Definition Second : Duration := 1000 * Millisecond.

(** [time.Time.Add], [time.Time.UnixNano]. *)
Definition Add (t : Time) (d : Duration) : Time := t + d.
Definition UnixNano (t : Time) : Z := t.

(** Modelled from the spec: [typeutil.ZeroTime] and
    [typeutil.SubTimeByWallClock] live in pkg/typeutil.  The spec calls the
    first "zero" (the instant read when the durable key is absent) and writes
    the second as the difference [after - before]. *)
Definition ZeroTime : Time := 0.
Definition SubTimeByWallClock (after before : Time) : Duration := after - before.

(** ** Constants (lines 35-40) *)

Definition UpdateTimestampStep : Duration := 50 * Millisecond.
Definition updateTimestampGuard : Duration := Millisecond.
Definition maxLogical : Z := Z.shiftl 1 18.

(** [int64] arithmetic wraps around. *)
Definition wrap64 (z : Z) : Z := (z + 2 ^ 63) mod 2 ^ 64 - 2 ^ 63.

(** ** Errors and panics *)

Inductive error : Type :=
  | errors_New (msg : string)
  | External (what : string)         (* an error handed back by etcd *)
  | errors_WithStack (e : error).

Inductive panic : Type :=
  | NilPointerDereference            (* field access through a nil pointer *)
  | InterfaceConversion              (* [x.(T)] on a nil interface value *)
  | NilLeadership.                   (* [LeaderTxn] through a nil handle *)

(** ** Data *)

(** [atomicObject] (lines 82-85). *)
Record atomicObject : Type := mkObject { physical : Time; logical : Z }.

(** [pdpb.Timestamp]. *)
Record Timestamp : Type := mkTimestamp { Physical : Z; Logical : Z }.

(** Modelled from the spec: [election.Leadership] lives in server/election.
    A handle is an opaque identity; [Check] is "a best-effort local
    predicate", false on a cleared (nil) handle, which is what makes the
    allocator answer "not leader" after [ResetTimestamp]; on a live handle it
    is whether the lease is still valid, which the caller of the model says. *)
Definition Leadership := nat.

Definition Check (ls : option Leadership) (lease_valid : bool) : bool :=
  match ls with
  | None => false
  | Some _ => lease_valid
  end.

(** What [LeaderTxn(...).Then(...).Commit()] gives back: an error, or a
    response with its [Succeeded] flag. *)
Inductive CommitResult : Type :=
  | CommitErr (e : error)
  | CommitResp (Succeeded : bool).

(** The fields of [TimestampOracle] that change (lines 43-56), the heap of
    snapshots they point into, and the durable key [<root>/timestamp]. *)
Record World : Type := mkWorld {
  leadership : option Leadership;     (* atomic.Value, nil until stored *)
  objects : list atomicObject;        (* the heap *)
  ts : option nat;                    (* unsafe.Pointer to the snapshot *)
  lastSavedTime : option Time;        (* atomic.Value, nil until stored *)
  etcd_timestamp : option Time;       (* the durable key, absent = None *)
}.

Definition set_leadership (l : option Leadership) (w : World) : World :=
  mkWorld l (objects w) (ts w) (lastSavedTime w) (etcd_timestamp w).
Definition set_objects (h : list atomicObject) (w : World) : World :=
  mkWorld (leadership w) h (ts w) (lastSavedTime w) (etcd_timestamp w).
Definition set_ts (p : option nat) (w : World) : World :=
  mkWorld (leadership w) (objects w) p (lastSavedTime w) (etcd_timestamp w).
Definition set_lastSavedTime (t : option Time) (w : World) : World :=
  mkWorld (leadership w) (objects w) (ts w) t (etcd_timestamp w).
Definition set_etcd_timestamp (t : option Time) (w : World) : World :=
  mkWorld (leadership w) (objects w) (ts w) (lastSavedTime w) t.

(** ** The monad of methods *)

Inductive outcome (A : Type) : Type :=
  | Returns (a : A) (w : World)
  | Panics (p : panic).
Arguments Returns {A} a w.
Arguments Panics {A} p.

Definition M (A : Type) : Type := World → outcome A.

#[export] Instance M_ret : MRet M := λ A a w, Returns a w.
#[export] Instance M_bind : MBind M := λ A B f m w,
  match m w with
  | Returns a w' => f a w'
  | Panics p => Panics p
  end.

Definition throw {A : Type} (p : panic) : M A := λ _, Panics p.
Definition get_world : M World := λ w, Returns w w.
Definition modify (f : World → World) : M unit := λ w, Returns () (f w).

(** Other goroutines run here: [f] is what they do to the world. *)
Definition interleave (f : World → World) : M unit := modify f.

(** *** Atomic primitives *)

(** [atomic.LoadPointer(&t.ts)]. *)
Definition LoadPointer : M (option nat) := λ w, Returns (ts w) w.

(** [atomic.StorePointer(&t.ts, p)]. *)
Definition StorePointer (p : nat) : M unit := modify (set_ts (Some p)).

(** [atomic.CompareAndSwapPointer(&t.ts, old, new)]. *)
Definition CompareAndSwapPointer (old : option nat) (new : nat) : M bool := λ w,
  if decide (ts w = old) then Returns true (set_ts (Some new) w)
  else Returns false w.

(** [&atomicObject{...}]: a fresh cell. *)
Definition new_atomicObject (o : atomicObject) : M nat := λ w,
  Returns (length (objects w)) (set_objects (objects w ++ [o]) w).

(** The object behind a pointer. *)
Definition pointee (w : World) (p : option nat) : option atomicObject :=
  match p with
  | Some i => objects w !! i
  | None => None
  end.

(** Reading through a snapshot pointer, [p.physical] or [p.logical]; a nil
    pointer panics.  (An index outside the heap cannot arise, every pointer
    comes from an allocation; it is treated like nil.) *)
Definition deref (p : option nat) : M atomicObject := λ w,
  match pointee w p with
  | Some o => Returns o w
  | None => Panics NilPointerDereference
  end.

(** [atomic.AddInt64(&p.logical, delta)]: returns the new value. *)
Definition AddInt64 (p : nat) (delta : Z) : M Z := λ w,
  match objects w !! p with
  | Some o =>
      let v := wrap64 (logical o + delta) in
      Returns v (set_objects (<[p := mkObject (physical o) v]> (objects w)) w)
  | None => Panics NilPointerDereference
  end.

(** [getLeadership] (lines 70-76) and [setLeadership] (lines 78-80). *)
Definition getLeadership : M (option Leadership) := λ w, Returns (leadership w) w.
Definition setLeadership (l : option Leadership) : M unit := modify (set_leadership l).

(** ** The methods of [TimestampOracle] *)

Section Oracle.

(** [t.saveInterval], fixed by [NewTimestampOracle] (lines 60-68). *)
Variable saveInterval : Duration.

(** [loadTimestamp] (lines 91-100).  [get] is the error of
    [etcdutil.GetValue], if any.  The key holds what [saveTimestamp] wrote,
    the nanoseconds of an instant, which [typeutil.ParseTimestamp] reads
    back. *)
Definition loadTimestamp (get : option error) : M (Time * option error) :=
  match get with
  | Some err => mret (ZeroTime, Some err)
  | None =>
      w ← get_world;
      match etcd_timestamp w with
      | None => mret (ZeroTime, None)
      | Some data => mret (data, None)
      end
  end.

(** Modelled from the spec: [election.Leadership.LeaderTxn] lives in
    server/election.  It "wraps a durable write with the leader-conditional
    predicate" that the handle holds, so it goes through the handle: on the
    nil handle that [ResetTimestamp] stores there is nothing to go through
    and the call faults before anything is sent.  On a live handle the
    transaction is committed and [commit] is what etcd answers. *)
Definition LeaderTxn (ls : option Leadership) (commit : CommitResult) : M CommitResult :=
  match ls with
  | None => throw NilLeadership
  | Some _ => mret commit
  end.

(** [saveTimestamp] (lines 104-122).  The transaction puts the key only if
    this member is still the leader; [commit] is what etcd answers. *)
Definition saveTimestamp (t : Time) (commit : CommitResult) : M (option error) :=
  ls ← getLeadership;
  resp ← LeaderTxn ls commit;
  match resp with
  | CommitErr err => mret (Some (errors_WithStack err))
  | CommitResp false =>
      mret (Some (errors_New "save timestamp failed, maybe we lost leader"))
  | CommitResp true =>
      modify (set_etcd_timestamp (Some (UnixNano t)));;
      modify (set_lastSavedTime (Some t));;
      mret None
  end.

(** [SyncTimestamp] (lines 125-166). *)
Definition SyncTimestamp (ls : Leadership) (get : option error) (now : Time)
    (commit : CommitResult) : M (option error) :=
  setLeadership (Some ls);;
  '(last, err) ← loadTimestamp get;
  match err with
  | Some e => mret (Some e)
  | None =>
      let next := now in
      let next :=
        if decide (SubTimeByWallClock next last < updateTimestampGuard)
        then Add last updateTimestampGuard
        else next in
      let save := Add next saveInterval in
      err ← saveTimestamp save commit;
      match err with
      | Some e => mret (Some e)
      | None =>
          current ← new_atomicObject (mkObject next 0);
          StorePointer current;;
          mret None
      end
  end.

(** Modelled from the spec: [tsoutil.ParseTS] lives in pkg/tsoutil.  The wire
    format is [(physical_ms << 18) | logical]. *)
Definition ParseTS (tso : Z) : Time * Z :=
  (Z.shiftr tso 18 * Millisecond, Z.land tso (maxLogical - 1)).

(** The accepted branch of [ResetUserTimestamp] (lines 189-199), entered with
    [prev] loaded; [while_saving] is what the other goroutines do while the
    transaction is on its way to etcd, [before_swap] what they do between the
    return of [saveTimestamp] and the compare-and-swap. *)
Definition saveAndSwap (next : Time) (prev : option nat) (commit : CommitResult)
    (while_saving before_swap : World → World) : M (option error) :=
  let save := Add next saveInterval in
  interleave while_saving;;
  err ← saveTimestamp save commit;
  match err with
  | Some e => mret (Some e)
  | None =>
      update ← new_atomicObject (mkObject next 0);
      interleave before_swap;;
      CompareAndSwapPointer prev update;;
      mret None
  end.

(** [ResetUserTimestamp] (lines 169-200).  [lease_valid] is the state of the
    lease at the check and [gap] the value of [t.maxResetTSGap()]. *)
Definition ResetUserTimestamp (tso : Z) (lease_valid : bool) (gap : Duration)
    (commit : CommitResult) (while_saving before_swap : World → World)
    : M (option error) :=
  ls ← getLeadership;
  if negb (Check ls lease_valid)
  then mret (Some (errors_New "Setup timestamp failed, lease expired"))
  else
    let '(physical_part, _) := ParseTS tso in
    let next := Add physical_part Millisecond in
    prev ← LoadPointer;
    prevObj ← deref prev;
    if decide (SubTimeByWallClock next (physical prevObj) ≤ 3 * updateTimestampGuard)
    then mret (Some (errors_New "the specified ts too small than now"))
    else if decide (gap ≤ SubTimeByWallClock next (physical prevObj))
    then mret (Some (errors_New "the specified ts too large than now"))
    else saveAndSwap next prev commit while_saving before_swap.

(** The second half of [UpdateTimestamp] (lines 249-267), entered once [next]
    is chosen. *)
Definition publishNext (next : Time) (commit : CommitResult) : M (option error) :=
  saved ← (λ w, Returns (lastSavedTime w) w);
  match saved with
  | None => throw InterfaceConversion          (* .(time.Time) on nil *)
  | Some last =>
      err ← (if decide (SubTimeByWallClock last next ≤ updateTimestampGuard)
             then saveTimestamp (Add next saveInterval) commit
             else mret None);
      match err with
      | Some e => mret (Some e)
      | None =>
          current ← new_atomicObject (mkObject next 0);
          StorePointer current;;
          mret None
      end
  end.

(** [UpdateTimestamp] (lines 213-268).  The counters and the log lines of
    lines 221-231 change nothing here. *)
Definition UpdateTimestamp (now : Time) (commit : CommitResult) : M (option error) :=
  prev ← LoadPointer;
  prevObj ← deref prev;
  let jetLag := SubTimeByWallClock now (physical prevObj) in
  let prevLogical := logical prevObj in
  if decide (updateTimestampGuard < jetLag)
  then publishNext now commit
  else if decide (maxLogical `quot` 2 < prevLogical)
  then publishNext (Add (physical prevObj) Millisecond) commit
  else mret None.

(** [ResetTimestamp] (lines 271-277). *)
Definition ResetTimestamp : M unit :=
  zero ← new_atomicObject (mkObject ZeroTime 0);
  StorePointer zero;;
  setLeadership None.

(** [maxRetryCount] (line 279); the failpoint of lines 289-291 that lowers it
    is compiled out of a production build. *)
Definition maxRetryCount : nat := 10.

(** What surrounds one turn of the loop of [GetRespTS]: the two lease checks,
    and what the other goroutines do between the load of the pointer and its
    use, between the add and the second check, and while this one sleeps. *)
Record attemptEnv : Type := mkAttemptEnv {
  after_load : World → World;
  lease_first : bool;
  after_add : World → World;
  lease_second : bool;
  while_asleep : World → World;
}.

Inductive attemptResult : Type :=
  | Continue (resp : Timestamp)
  | Return (resp : Timestamp) (err : option error).

(** Lines 296-303: no snapshot yet. *)
Definition notSynced (e : attemptEnv) (resp : Timestamp) : M attemptResult :=
  ls ← getLeadership;
  if Check ls (lease_first e)
  then interleave (while_asleep e);; mret (Continue resp)
  else mret (Return (mkTimestamp 0 0)
               (Some (errors_New "can not get timestamp, may be not leader"))).

(** One turn of the loop (lines 294-320); also hands back [current]. *)
Definition attempt (count : Z) (e : attemptEnv) (resp : Timestamp)
    : M (attemptResult * option nat) :=
  current ← LoadPointer;
  interleave (after_load e);;
  match current with
  | None => r ← notSynced e resp; mret (r, current)
  | Some p =>
      o ← deref current;
      if decide (physical o = ZeroTime)
      then r ← notSynced e resp; mret (r, current)
      else
        let physical_ms := UnixNano (physical o) `quot` Millisecond in
        l ← AddInt64 p count;
        let resp := mkTimestamp physical_ms l in
        if decide (maxLogical ≤ Logical resp)
        then interleave (while_asleep e);; mret (Continue resp, current)
        else
          interleave (after_add e);;
          ls ← getLeadership;
          if negb (Check ls (lease_second e))
          then mret (Return (mkTimestamp 0 0)
                       (Some (errors_New "alloc timestamp failed, lease expired")),
                     current)
          else mret (Return resp None, current)
  end.

(** The loop of lines 293-322, [n] turns left, [i] the index of the turn. *)
Fixpoint retryLoop (count : Z) (envs : nat → attemptEnv) (n i : nat)
    (resp : Timestamp) : M (Timestamp * option error * option nat) :=
  match n with
  | O => mret (resp, Some (errors_New "can not get timestamp"), None)
  | S n' =>
      '(r, current) ← attempt count (envs i) resp;
      match r with
      | Continue resp' => retryLoop count envs n' (S i) resp'
      | Return resp' err => mret (resp', err, current)
      end
  end.

(** [GetRespTS] (lines 282-323) with, next to its two results, the snapshot
    pointer [current] of the turn that returned. *)
Definition GetRespTS_current (count : Z) (envs : nat → attemptEnv)
    : M (Timestamp * option error * option nat) :=
  if decide (count = 0)
  then mret (mkTimestamp 0 0, Some (errors_New "tso count should be positive"), None)
  else retryLoop count envs maxRetryCount 0%nat (mkTimestamp 0 0).

Definition GetRespTS (count : Z) (envs : nat → attemptEnv)
    : M (Timestamp * option error) :=
  r ← GetRespTS_current count envs;
  mret (r.1.1, r.1.2).

End Oracle.

(** ** Observations on a world *)

(** The published snapshot: what [t.ts] points to. *)
Definition snapshot (w : World) : option atomicObject := pointee w (ts w).

(** The error with which [saveTimestamp] answers [commit], if any. *)
Definition save_error (commit : CommitResult) : option error :=
  match commit with
  | CommitErr err => Some (errors_WithStack err)
  | CommitResp false =>
      Some (errors_New "save timestamp failed, maybe we lost leader")
  | CommitResp true => None
  end.

(** The instant an operator reset asks for (lines 174-175). *)
Definition resetNext (tso : Z) : Time := Add (ParseTS tso).1 Millisecond.

(** What a goroutine may do to the snapshots already allocated: they stay
    where they are, keep their [physical], and their counters do not go
    down. *)
Definition heap_grows (w w' : World) : Prop :=
  ∀ p o, objects w !! p = Some o →
    ∃ o', objects w' !! p = Some o' ∧ physical o' = physical o ∧ logical o ≤ logical o'.

(** The counters are [int64]s. *)
Definition int64_counters (w : World) : Prop :=
  ∀ p o, objects w !! p = Some o → - 2 ^ 63 ≤ logical o < 2 ^ 63.

(** What the other goroutines do in one go. *)
Definition others (f : World → World) : Prop :=
  ∀ w, heap_grows w (f w) ∧ (int64_counters w → int64_counters (f w)).

(** The errors by which [GetRespTS] says "not leader" (lines 303 and 318). *)
Definition notLeader (e : error) : Prop :=
  e = errors_New "can not get timestamp, may be not leader" ∨
  e = errors_New "alloc timestamp failed, lease expired".

(** After [ResetTimestamp]: the sentinel is published and the handle is
    cleared. *)
Definition unarmed (w : World) : Prop :=
  leadership w = None ∧ ∃ o, snapshot w = Some o ∧ physical o = ZeroTime.

(** A leader term under way: a snapshot is published, the mirror holds what
    the durable key holds, and the saved instant is ahead of the published
    one by at least the guard and at most [saveInterval]. *)
Definition inTerm (saveInterval : Duration) (w : World) : Prop :=
  ∃ o s, snapshot w = Some o ∧ lastSavedTime w = Some s ∧ etcd_timestamp w = Some s ∧
    physical o + updateTimestampGuard ≤ s ≤ physical o + saveInterval.

(** The state-changing operations of a term, each run without another
    goroutine in between. *)
Inductive termOp : Type :=
  | OpSync (ls : Leadership) (get : option error) (now : Time) (commit : CommitResult)
  | OpUpdate (now : Time) (commit : CommitResult)
  | OpResetUser (tso : Z) (lease_valid : bool) (gap : Duration) (commit : CommitResult).

Definition runOp (saveInterval : Duration) (op : termOp) : M (option error) :=
  match op with
  | OpSync ls get now commit => SyncTimestamp saveInterval ls get now commit
  | OpUpdate now commit => UpdateTimestamp saveInterval now commit
  | OpResetUser tso lease_valid gap commit =>
      ResetUserTimestamp saveInterval tso lease_valid gap commit id id
  end.

(** The surroundings of a turn respect the snapshots. *)
Definition calm (e : attemptEnv) : Prop :=
  others (after_load e) ∧ others (after_add e) ∧ others (while_asleep e).

(** Nothing happens around the turns of a call. *)
Definition alone (lease_valid : bool) : attemptEnv :=
  mkAttemptEnv id lease_valid id lease_valid id.

(** A run of [GetRespTS] calls, one after the other; the answers in order. *)
Fixpoint serve (calls : list (Z * (nat → attemptEnv)))
    (w : World) : list (outcome (Timestamp * option error)) :=
  match calls with
  | [] => []
  | (count, envs) :: rest =>
      let r := GetRespTS count envs w in
      r :: match r with
           | Returns _ w' => serve rest w'
           | Panics _ => []
           end
  end.

(** The world after [StorePointer(&atomicObject{physical: next})]. *)
Definition published (next : Time) (w : World) : World :=
  set_ts (Some (length (objects w))) (set_objects (objects w ++ [mkObject next 0]) w).

(** The world after [atomic.AddInt64(&p.logical, count)] on the object [o]
    at [p]. *)
Definition bumped (p : nat) (o : atomicObject) (count : Z) (w : World) : World :=
  set_objects (<[p := mkObject (physical o) (wrap64 (logical o + count))]> (objects w)) w.

(** The answer built at lines 306-307. *)
Definition answer (o : atomicObject) (count : Z) : Timestamp :=
  mkTimestamp (UnixNano (physical o) `quot` Millisecond) (wrap64 (logical o + count)).

(** The atomic add by which a call is served from the snapshot at [p]: the
    answer carries the milliseconds of the snapshot and the new value of its
    counter. *)
Definition servedBy (count : Z) (p : nat) (before after : World) (r : Timestamp) : Prop :=
  ∃ o, objects before !! p = Some o ∧ physical o ≠ ZeroTime ∧
       Physical r = UnixNano (physical o) `quot` Millisecond ∧
       AddInt64 p count before = Returns (Logical r) after ∧
       objects after !! p = Some (mkObject (physical o) (Logical r)).

(** Goroutines that neither start a term nor publish. *)
Definition keeps_unarmed (f : World → World) : Prop :=
  ∀ w, unarmed w → unarmed (f w) ∧ heap_grows w (f w).

(** From [w] to [w']: the published physical has not gone back (I1), the
    saved instant has not gone back (I2), and the saved instant is at least a
    guard ahead of the published physical (I4). *)
Definition stepsForward (w w' : World) : Prop :=
  ∃ o s o' s',
    snapshot w = Some o ∧ etcd_timestamp w = Some s ∧
    snapshot w' = Some o' ∧ etcd_timestamp w' = Some s' ∧
    physical o ≤ physical o' ∧ s ≤ s' ∧ physical o' + updateTimestampGuard ≤ s'.


(** The calls a process makes on its oracle, one after the other. *)
Inductive call : Type :=
  | CallOp (op : termOp)
  | CallReset
  | CallGet (count : Z) (lease_valid : bool).

Definition runCall (saveInterval : Duration) (c : call) : M unit :=
  match c with
  | CallOp op => runOp saveInterval op;; mret ()
  | CallReset => ResetTimestamp
  | CallGet count lease_valid => GetRespTS count (λ _, alone lease_valid);; mret ()
  end.


(** The world of scenario S3: the snapshot [(5000 ms, 0)] of a leader whose
    save point is a window ahead. *)
Definition world_S3 : World :=
  mkWorld (Some 1%nat) [mkObject (5000 * Millisecond) 0] (Some 0%nat)
    (Some (8000 * Millisecond)) (Some (8000 * Millisecond)).

(** A leader that has lost its term and then fails to read the key when it
    starts the next one. *)
Definition world_resynced (w : World) : Prop :=
  ∃ w1, ResetTimestamp world_S3 = Returns () w1 ∧
        SyncTimestamp (3 * Second) 2%nat (Some (External "etcd unavailable"))
          (6000 * Millisecond) (CommitResp true) w1 =
          Returns (Some (External "etcd unavailable")) w.

(** What a goroutine that runs [m] to its end does to the world. *)
Definition inBackground {A : Type} (m : M A) : World → World := λ w,
  match m w with
  | Returns _ w' => w'
  | Panics _ => w
  end.

(** The world of scenario S4: the snapshot [(10000 ms, 0)] of a leader whose
    save point is a window ahead. *)
Definition world_S4 : World :=
  mkWorld (Some 1%nat) [mkObject (10000 * Millisecond) 0] (Some 0%nat)
    (Some (13000 * Millisecond)) (Some (13000 * Millisecond)).

(** A process that has just started. *)
Definition world_start : World := mkWorld None [] None None None.

(** ** More of the oracle *)

(** [NewTimestampOracle] (lines 60-68): no handle, no snapshot, no mirror.
    [stored] is what the durable key holds when the process starts. *)
Definition NewTimestampOracle (stored : option Time) : World :=
  mkWorld None [] None None stored.

(** Timestamps in their order: by physical, then by logical. *)
Definition ts_lt (a b : Timestamp) : Prop :=
  Physical a < Physical b ∨ (Physical a = Physical b ∧ Logical a < Logical b).

(** A run of state-changing operations, one after the other. *)
Fixpoint runOps (saveInterval : Duration) (ops : list termOp) : M unit :=
  match ops with
  | [] => mret ()
  | op :: ops => runOp saveInterval op;; runOps saveInterval ops
  end.

(** The snapshot pointer is nil or points into the heap. *)
Definition pointer_ok (w : World) : Prop := ts w = None ∨ is_Some (snapshot w).

(** No snapshot to allocate from: the pointer is nil or the sentinel is
    published. *)
Definition unsynced (w : World) : Prop :=
  ts w = None ∨ ∃ o, snapshot w = Some o ∧ physical o = ZeroTime.

(** Nothing but the counter of the published snapshot differs. *)
Definition same_but_counter (w w' : World) : Prop :=
  leadership w' = leadership w ∧ ts w' = ts w ∧
  lastSavedTime w' = lastSavedTime w ∧ etcd_timestamp w' = etcd_timestamp w ∧
  length (objects w') = length (objects w) ∧
  (∀ q, ts w ≠ Some q → objects w' !! q = objects w !! q) ∧
  (∀ o, snapshot w = Some o → ∃ o', snapshot w' = Some o' ∧ physical o' = physical o).

(** The snapshot is kept, or a later one is published at least a millisecond
    above it. *)
Definition keptOrAdvanced (w w' : World) : Prop :=
  (ts w' = ts w ∧ objects w' = objects w) ∨
  (∃ o o', snapshot w = Some o ∧ snapshot w' = Some o' ∧
           physical o + Millisecond ≤ physical o' ∧ logical o' = 0).

(** ** Calls of [GetRespTS] that overlap *)

(** Where a goroutine stands in [GetRespTS], between two of its accesses to
    the shared memory; [turns] is what the loop of line 293 has left. *)
Inductive position : Type :=
  | Called                                                   (* line 285 *)
  | AtLoad (turns : nat) (resp : Timestamp)                  (* lines 293-294 *)
  | Loaded (turns : nat) (resp : Timestamp) (current : option nat)
                                                             (* lines 295-307 *)
  | Added (resp : Timestamp) (current : option nat)          (* line 317 *)
  | Finished (resp : Timestamp) (err : option error) (current : option nat).

(** Lines 296-303 in a goroutine of its own: the sleep of line 299 is where
    the others run. *)
Definition notSyncedStep (lease_valid : bool) (turns : nat) (resp : Timestamp)
    (current : option nat) : M position :=
  ls ← getLeadership;
  if Check ls lease_valid
  then mret (AtLoad turns resp)
  else mret (Finished (mkTimestamp 0 0)
               (Some (errors_New "can not get timestamp, may be not leader")) current).

(** The next step of a goroutine in [GetRespTS(count)]: the code up to its
    next access to the shared memory, the accesses being [atomic.LoadPointer]
    (line 294), the load of the handle (lines 297 and 317) and
    [atomic.AddInt64] (line 307), which reads the counter and writes the sum
    in one step.  The read of [current.physical] (line 295) goes with the
    step that follows it: nothing writes the [physical] of an object once it
    is allocated.  [lease_valid] is what the lease says if the step asks. *)
Definition tstep (count : Z) (lease_valid : bool) (pos : position) : M position :=
  match pos with
  | Called =>
      if decide (count = 0)
      then mret (Finished (mkTimestamp 0 0)
                   (Some (errors_New "tso count should be positive")) None)
      else mret (AtLoad maxRetryCount (mkTimestamp 0 0))
  | AtLoad O resp =>
      mret (Finished resp (Some (errors_New "can not get timestamp")) None)
  | AtLoad (S turns) resp =>
      current ← LoadPointer;
      mret (Loaded turns resp current)
  | Loaded turns resp current =>
      match current with
      | None => notSyncedStep lease_valid turns resp current
      | Some p =>
          o ← deref current;
          if decide (physical o = ZeroTime)
          then notSyncedStep lease_valid turns resp current
          else
            let physical_ms := UnixNano (physical o) `quot` Millisecond in
            l ← AddInt64 p count;
            let resp := mkTimestamp physical_ms l in
            if decide (maxLogical ≤ Logical resp)
            then mret (AtLoad turns resp)
            else mret (Added resp current)
      end
  | Added resp current =>
      ls ← getLeadership;
      if negb (Check ls lease_valid)
      then mret (Finished (mkTimestamp 0 0)
                   (Some (errors_New "alloc timestamp failed, lease expired")) current)
      else mret (Finished resp None current)
  | Finished _ _ _ => mret pos
  end.

(** The goroutines that are in [GetRespTS], each with its [count]. *)
Abbreviation pool := (list (Z * position)).

(** What happens next in the process: the goroutine [i] of the pool takes a
    step, or a goroutine outside the pool does [f] to the world. *)
Inductive event : Type :=
  | Run (i : nat) (lease_valid : bool)
  | Other (f : World → World).

Definition step (e : event) (g : pool) : M pool :=
  match e with
  | Run i lease_valid =>
      match g !! i with
      | Some (count, pos) =>
          pos' ← tstep count lease_valid pos;
          mret (<[i := (count, pos')]> g)
      | None => mret g
      end
  | Other f => interleave f;; mret g
  end.

(** A run of the process: the events of a schedule, in their order. *)
Fixpoint exec (sched : list event) (g : pool) : M pool :=
  match sched with
  | [] => mret g
  | e :: sched => g' ← step e g; exec sched g'
  end.

(** The calls [GetRespTS(n)] for the [n] of [calls], none of them started. *)
Definition start (calls : list Z) : pool := map (λ n, (n, Called)) calls.

(** What the methods other than [GetRespTS] do to the heap: they allocate
    snapshots with the counter at 0 (lines 160, 194, 259 and 272) and write
    to none that exists. *)
Definition publishes_only (f : World → World) : Prop :=
  ∀ w, ∃ news, objects (f w) = objects w ++ news ∧ Forall (λ o, logical o = 0) news.

Definition bystander (e : event) : Prop :=
  match e with
  | Run _ _ => True
  | Other f => publishes_only f
  end.

(** Where a goroutine goes on from after a turn of the loop. *)
Definition resume (turns : nat) (r : attemptResult) (current : option nat) : position :=
  match r with
  | Continue resp => AtLoad turns resp
  | Return resp err => Finished resp err current
  end.

(** The timestamp a goroutine holds from its add, and the snapshot it added
    to: after the add of line 307 that stayed below [maxLogical], and after
    the return of line 320. *)
Definition claim (pos : position) : option (nat * Timestamp) :=
  match pos with
  | Added r (Some p) => Some (p, r)
  | Finished r None (Some p) => Some (p, r)
  | _ => None
  end.

(** In the run of [sched] from the pool [g0] and the world [w0], the
    goroutine [i] got [r] from the snapshot at [p] by its atomic add of [n]:
    at some step of the run [AddInt64] took the counter of [p] from [c] to
    [c + n] and returned [Logical r = c + n]. *)
Definition addedIn (g0 : pool) (w0 : World) (sched : list event)
    (i : nat) (n : Z) (p : nat) (r : Timestamp) : Prop :=
  ∃ s1 lease_valid s2 g1 w1 w2 turns resp o,
    sched = s1 ++ Run i lease_valid :: s2 ∧
    exec s1 g0 w0 = Returns g1 w1 ∧
    g1 !! i = Some (n, Loaded turns resp (Some p)) ∧
    objects w1 !! p = Some o ∧ Logical r = logical o + n ∧
    servedBy n p w1 w2 r ∧
    exec (s1 ++ [Run i lease_valid]) g0 w0 =
      Returns (<[i := (n, Added r (Some p))]> g1) w2.

(** A goroutine that holds a timestamp holds one of the snapshot it added
    to, not above its counter and below [maxLogical], with its [n] values
    above 0. *)
Definition owns (w : World) (n : Z) (pos : position) : Prop :=
  ∀ p r, claim pos = Some (p, r) →
    ∃ o, objects w !! p = Some o ∧
         Physical r = UnixNano (physical o) `quot` Millisecond ∧
         0 ≤ Logical r - n ∧ Logical r ≤ logical o ∧ Logical r < maxLogical.

(** Two goroutines that hold timestamps of the same snapshot hold ranges
    that lie apart. *)
Definition apart (n1 : Z) (pos1 : position) (n2 : Z) (pos2 : position) : Prop :=
  ∀ p r1 r2, claim pos1 = Some (p, r1) → claim pos2 = Some (p, r2) →
    Logical r1 ≤ Logical r2 - n2 ∨ Logical r2 ≤ Logical r1 - n1.

Definition exclusive (g : pool) (w : World) : Prop :=
  (∀ i n pos, g !! i = Some (n, pos) → owns w n pos) ∧
  (∀ i j n m pi pj, i ≠ j → g !! i = Some (n, pi) → g !! j = Some (m, pj) →
     apart n pi m pj).

(** The world of scenario S3 with two calls in flight, for 5 and for 3
    timestamps: both load the pointer, the second adds, the first adds, and
    each passes its second lease check. *)
Definition overlapping : list event :=
  [Run 0 true; Run 1 true; Run 0 true; Run 1 true; Run 1 true; Run 0 true;
   Run 0 true; Run 1 true].

(** ** Proof tools *)

Ltac unfoldM :=
  unfold mbind, M_bind, mret, M_ret, modify, interleave, throw, get_world,
    LoadPointer, StorePointer, new_atomicObject, deref,
    getLeadership, setLeadership, LeaderTxn in *.

Ltac step := unfoldM; simpl in *.

(** The same without unfolding constants. *)
Ltac stepv := unfoldM; cbv beta iota zeta.

Ltac tlia :=
  unfold updateTimestampGuard, Millisecond, Add, SubTimeByWallClock in *; lia.

Lemma wrap64_small (z : Z) : - 2 ^ 63 ≤ z < 2 ^ 63 → wrap64 z = z.
Proof.
  intros H. unfold wrap64.
  rewrite Z.mod_small by lia. lia.
Qed.

Lemma wrap64_range (z : Z) : - 2 ^ 63 ≤ wrap64 z < 2 ^ 63.
Proof.
  unfold wrap64.
  pose proof (Z.mod_pos_bound (z + 2 ^ 63) (2 ^ 64) ltac:(lia)). lia.
Qed.

Lemma wrap64_over (z : Z) : 2 ^ 63 ≤ z < 2 ^ 64 → wrap64 z = z - 2 ^ 64.
Proof.
  intros H. unfold wrap64.
  replace (z + 2 ^ 63) with ((z - 2 ^ 63) + 1 * 2 ^ 64) by lia.
  rewrite Z.mod_add by lia. rewrite Z.mod_small by lia. lia.
Qed.

Lemma maxLogical_eq : maxLogical = 262144.
Proof. reflexivity. Qed.

Lemma snapshot_lookup (w : World) (p : nat) (o : atomicObject) :
  ts w = Some p → objects w !! p = Some o → snapshot w = Some o.
Proof. intros Hp Ho. unfold snapshot. rewrite Hp. exact Ho. Qed.

Lemma lookup_fresh (h : list atomicObject) (o : atomicObject) :
  (h ++ [o]) !! length h = Some o.
Proof. rewrite lookup_app_r by lia. by rewrite Nat.sub_diag. Qed.

(** ** SyncTimestamp *)

Section Sync.

Variable saveInterval : Duration.

(** What a successful [SyncTimestamp] leaves behind. *)
Lemma SyncTimestamp_ok (ls : Leadership) (now : Time) (w : World) :
  let last := default ZeroTime (etcd_timestamp w) in
  let next := Z.max now (last + updateTimestampGuard) in
  SyncTimestamp saveInterval ls None now (CommitResp true) w =
    Returns None
      (mkWorld (Some ls) (objects w ++ [mkObject next 0]) (Some (length (objects w)))
         (Some (next + saveInterval)) (Some (next + saveInterval))).
Proof.
  unfold SyncTimestamp, loadTimestamp, saveTimestamp, SubTimeByWallClock, Add, UnixNano.
  step. destruct (etcd_timestamp w) as [t|]; simpl.
  - destruct (decide (now - t < updateTimestampGuard)); simpl.
    + rewrite Z.max_r by lia. reflexivity.
    + rewrite Z.max_l by lia. reflexivity.
  - unfold ZeroTime. destruct (decide (now - 0 < updateTimestampGuard)); simpl.
    + rewrite Z.max_r by lia. reflexivity.
    + rewrite Z.max_l by lia. reflexivity.
Qed.

(** A [SyncTimestamp] whose save fails only records the handle. *)
Lemma SyncTimestamp_save_fails (ls : Leadership) (now : Time) (commit : CommitResult)
    (e : error) (w : World) :
  save_error commit = Some e →
  SyncTimestamp saveInterval ls None now commit w =
    Returns (Some e) (set_leadership (Some ls) w).
Proof.
  intros He.
  unfold SyncTimestamp, loadTimestamp, saveTimestamp. step.
  destruct (etcd_timestamp w); simpl;
    destruct commit as [err|[]]; simpl in *; congruence.
Qed.

(** A [SyncTimestamp] that cannot read the key only records the handle. *)
Lemma SyncTimestamp_load_fails (ls : Leadership) (now : Time) (commit : CommitResult)
    (e : error) (w : World) :
  SyncTimestamp saveInterval ls (Some e) now commit w =
    Returns (Some e) (set_leadership (Some ls) w).
Proof. reflexivity. Qed.

End Sync.

(** C3.  [SyncTimestamp] takes [next] from the clock, moves it to
    [last + updateTimestampGuard] when the clock is less than a guard ahead of
    the saved instant [last] (zero when the key is absent), saves
    [next + saveInterval], and publishes [(next, 0)] only when the save went
    through: a failed save leaves pointer, heap, mirror and key as they were.
    With 2000000 ms saved, the clock at 1999999.5 ms and a window of 3 s, it
    publishes 2000001 ms and saves 2003001 ms. *)
Theorem C3_SyncTimestamp (saveInterval : Duration) (ls : Leadership) (now : Time)
    (w : World) :
  let last := default ZeroTime (etcd_timestamp w) in
  let next := if decide (SubTimeByWallClock now last < updateTimestampGuard)
              then Add last updateTimestampGuard else now in
  (∃ w', SyncTimestamp saveInterval ls None now (CommitResp true) w = Returns None w' ∧
         snapshot w' = Some (mkObject next 0) ∧
         etcd_timestamp w' = Some (Add next saveInterval) ∧
         lastSavedTime w' = Some (Add next saveInterval)) ∧
  (∀ err, SyncTimestamp saveInterval ls None now (CommitErr err) w =
            Returns (Some (errors_WithStack err)) (set_leadership (Some ls) w)) ∧
  SyncTimestamp saveInterval ls None now (CommitResp false) w =
    Returns (Some (errors_New "save timestamp failed, maybe we lost leader"))
      (set_leadership (Some ls) w) ∧
  (∃ w', SyncTimestamp (3 * Second) ls None (2000000 * Millisecond - 500000)
           (CommitResp true) (mkWorld None [] None None (Some (2000000 * Millisecond)))
         = Returns None w' ∧
         snapshot w' = Some (mkObject (2000001 * Millisecond) 0) ∧
         etcd_timestamp w' = Some (2003001 * Millisecond)).
Proof.
  intros last next. repeat split.
  - eexists. split; [apply SyncTimestamp_ok|].
    fold last. unfold snapshot; simpl. rewrite lookup_fresh.
    assert (Z.max now (last + updateTimestampGuard) = next) as ->.
    { unfold next, SubTimeByWallClock, Add. case_decide; lia. }
    done.
  - intros err. by apply SyncTimestamp_save_fails.
  - by apply SyncTimestamp_save_fails.
  - eexists. split; [apply SyncTimestamp_ok|]. done.
Qed.

(** ** UpdateTimestamp *)

Lemma snapshot_published (next : Time) (w : World) :
  snapshot (published next w) = Some (mkObject next 0).
Proof. unfold snapshot, published. simpl. apply lookup_fresh. Qed.

(** The world after a save of [t] that went through. *)
Lemma saveTimestamp_cases (t : Time) (commit : CommitResult) (w : World) :
  saveTimestamp t commit w =
    match leadership w with
    | None => Panics NilLeadership
    | Some _ =>
        match save_error commit with
        | Some e => Returns (Some e) w
        | None => Returns None (set_lastSavedTime (Some t) (set_etcd_timestamp (Some t) w))
        end
    end.
Proof.
  unfold saveTimestamp. stepv. destruct (leadership w); [|reflexivity].
  destruct commit as [err|[]]; reflexivity.
Qed.

Section Update.

Variable saveInterval : Duration.


Lemma publishNext_window_left (next last : Time) (commit : CommitResult) (w : World) :
  lastSavedTime w = Some last →
  updateTimestampGuard < SubTimeByWallClock last next →
  publishNext saveInterval next commit w = Returns None (published next w).
Proof.
  intros H Hgap. unfold publishNext. stepv. rewrite H.
  destruct (decide _) as [Hle|_]; [lia|]. reflexivity.
Qed.

(** The four ways [publishNext] can end under a handle, and the fault without
    one. *)
Lemma publishNext_cases (next : Time) (commit : CommitResult) (w : World) :
  publishNext saveInterval next commit w =
    match lastSavedTime w with
    | None => Panics InterfaceConversion
    | Some last =>
        if decide (SubTimeByWallClock last next ≤ updateTimestampGuard)
        then match leadership w with
             | None => Panics NilLeadership
             | Some _ =>
                 match save_error commit with
                 | Some e => Returns (Some e) w
                 | None =>
                     Returns None
                       (published next
                          (set_lastSavedTime (Some (Add next saveInterval))
                             (set_etcd_timestamp (Some (Add next saveInterval)) w)))
                 end
             end
        else Returns None (published next w)
    end.
Proof.
  unfold publishNext. stepv.
  destruct (lastSavedTime w) as [last|]; [|reflexivity].
  case_decide; [|reflexivity].
  rewrite saveTimestamp_cases.
  destruct (leadership w); [|reflexivity].
  destruct (save_error commit); reflexivity.
Qed.

Lemma publishNext_saved (next last : Time) (w : World) :
  lastSavedTime w = Some last → leadership w ≠ None →
  SubTimeByWallClock last next ≤ updateTimestampGuard →
  publishNext saveInterval next (CommitResp true) w =
    Returns None
      (published next
         (set_lastSavedTime (Some (Add next saveInterval))
            (set_etcd_timestamp (Some (Add next saveInterval)) w))).
Proof.
  intros H Hl Hgap. rewrite publishNext_cases, H.
  case_decide; [|lia]. by destruct (leadership w).
Qed.

Lemma publishNext_save_fails (next last : Time) (commit : CommitResult) (e : error)
    (w : World) :
  lastSavedTime w = Some last → leadership w ≠ None →
  SubTimeByWallClock last next ≤ updateTimestampGuard →
  save_error commit = Some e →
  publishNext saveInterval next commit w = Returns (Some e) w.
Proof.
  intros H Hl Hgap He. rewrite publishNext_cases, H.
  case_decide; [|lia]. destruct (leadership w); [|done]. by rewrite He.
Qed.

Lemma publishNext_no_handle (next last : Time) (commit : CommitResult) (w : World) :
  lastSavedTime w = Some last → leadership w = None →
  SubTimeByWallClock last next ≤ updateTimestampGuard →
  publishNext saveInterval next commit w = Panics NilLeadership.
Proof.
  intros H Hl Hgap. rewrite publishNext_cases, H, Hl.
  case_decide; [done|lia].
Qed.

Lemma publishNext_nil_publishes (next : Time) (commit : CommitResult) (w w' : World) :
  publishNext saveInterval next commit w = Returns None w' →
  snapshot w' = Some (mkObject next 0).
Proof.
  rewrite publishNext_cases. intros H.
  destruct (lastSavedTime w); [|discriminate].
  case_decide.
  - destruct (leadership w); [|discriminate].
    destruct (save_error commit); inversion H; subst. apply snapshot_published.
  - inversion H. apply snapshot_published.
Qed.

Lemma UpdateTimestamp_nil (now : Time) (commit : CommitResult) (w : World) :
  snapshot w = None →
  UpdateTimestamp saveInterval now commit w = Panics NilPointerDereference.
Proof. unfold snapshot. intros H. unfold UpdateTimestamp. step. by rewrite H. Qed.

Lemma UpdateTimestamp_unfold (now : Time) (commit : CommitResult) (w : World)
    (prev : atomicObject) :
  snapshot w = Some prev →
  UpdateTimestamp saveInterval now commit w =
    if decide (updateTimestampGuard < SubTimeByWallClock now (physical prev))
    then publishNext saveInterval now commit w
    else if decide (maxLogical `quot` 2 < logical prev)
    then publishNext saveInterval (Add (physical prev) Millisecond) commit w
    else Returns None w.
Proof.
  unfold snapshot. intros H. unfold UpdateTimestamp. step. rewrite H.
  repeat case_decide; reflexivity.
Qed.

(** Once [next] is chosen, [UpdateTimestamp] is its second half. *)
Lemma UpdateTimestamp_chosen (now : Time) (commit : CommitResult) (w : World)
    (prev : atomicObject) (next : Time) :
  snapshot w = Some prev →
  (updateTimestampGuard < SubTimeByWallClock now (physical prev) ∧ next = now) ∨
  (SubTimeByWallClock now (physical prev) ≤ updateTimestampGuard ∧
   maxLogical / 2 < logical prev ∧ next = Add (physical prev) Millisecond) →
  UpdateTimestamp saveInterval now commit w = publishNext saveInterval next commit w.
Proof.
  intros Hprev Hchosen. rewrite (UpdateTimestamp_unfold _ _ _ _ Hprev).
  change (maxLogical / 2) with 131072 in Hchosen.
  change (maxLogical `quot` 2) with 131072.
  destruct Hchosen as [[Hlag ->]|(Hlag & Hhalf & ->)].
  - case_decide; [done|lia].
  - do 2 (case_decide; try lia). done.
Qed.

End Update.

(** C4.  With [lag = now - prev.physical], [UpdateTimestamp] chooses [now]
    when [lag > updateTimestampGuard], otherwise [prev.physical + 1ms] when
    [prev.logical > maxLogical / 2], and otherwise returns nil with the world
    untouched.  With [next] chosen it publishes the snapshot [(next, 0)],
    beside the old ones: at once when the saved instant is more than a guard
    ahead of [next], and after saving [next + saveInterval] otherwise; when
    that save fails it returns the error and publishes nothing. *)
Theorem C4_UpdateTimestamp_policy (saveInterval : Duration) (now : Time)
    (commit : CommitResult) (w : World) (prev : atomicObject) (last : Time) :
  snapshot w = Some prev → lastSavedTime w = Some last → leadership w ≠ None →
  let lag := SubTimeByWallClock now (physical prev) in
  (∀ next,
     (updateTimestampGuard < lag ∧ next = now) ∨
     (lag ≤ updateTimestampGuard ∧ maxLogical / 2 < logical prev ∧
      next = Add (physical prev) Millisecond) →
     (updateTimestampGuard < SubTimeByWallClock last next →
        ∃ w', UpdateTimestamp saveInterval now commit w = Returns None w' ∧
              snapshot w' = Some (mkObject next 0) ∧
              objects w' = objects w ++ [mkObject next 0] ∧
              etcd_timestamp w' = etcd_timestamp w ∧
              lastSavedTime w' = lastSavedTime w) ∧
     (SubTimeByWallClock last next ≤ updateTimestampGuard →
        ∃ w', UpdateTimestamp saveInterval now (CommitResp true) w = Returns None w' ∧
              snapshot w' = Some (mkObject next 0) ∧
              objects w' = objects w ++ [mkObject next 0] ∧
              etcd_timestamp w' = Some (Add next saveInterval) ∧
              lastSavedTime w' = Some (Add next saveInterval)) ∧
     (SubTimeByWallClock last next ≤ updateTimestampGuard →
        ∀ e, save_error commit = Some e →
             UpdateTimestamp saveInterval now commit w = Returns (Some e) w)) ∧
  (lag ≤ updateTimestampGuard → logical prev ≤ maxLogical / 2 →
     UpdateTimestamp saveInterval now commit w = Returns None w).
Proof.
  intros Hprev Hlast Hl lag. split.
  - intros next Hchosen. split; [|split].
    + intros Hgap. rewrite (UpdateTimestamp_chosen _ _ _ _ _ next Hprev Hchosen).
      rewrite (publishNext_window_left _ _ _ _ _ Hlast Hgap).
      eexists. split; [reflexivity|]. split; [apply snapshot_published|done].
    + intros Hgap. rewrite (UpdateTimestamp_chosen _ _ _ _ _ next Hprev Hchosen).
      rewrite (publishNext_saved _ _ _ _ Hlast Hl Hgap).
      eexists. split; [reflexivity|]. split; [apply snapshot_published|done].
    + intros Hgap e He. rewrite (UpdateTimestamp_chosen _ _ _ _ _ next Hprev Hchosen).
      by eapply publishNext_save_fails.
  - intros Hlag Hhalf. rewrite (UpdateTimestamp_unfold _ _ _ _ _ Hprev). fold lag.
    change (maxLogical `quot` 2) with 131072. change (maxLogical / 2) with 131072 in Hhalf.
    do 2 (case_decide; try lia). done.
Qed.

(** C5.  A save that fails puts nothing in the mirror or the key and hands
    its error back; [SyncTimestamp] and [UpdateTimestamp] return that error
    and publish nothing: after [SyncTimestamp] only the handle is new, after
    [UpdateTimestamp] the world is as it was.  The mirror changes only in a
    save that succeeds.  (etcd answers only a transaction that was sent: the
    handle is set; through the nil handle [saveTimestamp] faults and nothing
    is written either.) *)
Theorem C5_failed_save_publishes_nothing (saveInterval : Duration)
    (commit : CommitResult) (e : error) (w : World) :
  save_error commit = Some e →
  (∀ t, saveTimestamp t commit w =
          match leadership w with
          | Some _ => Returns (Some e) w
          | None => Panics NilLeadership
          end) ∧
  (∀ ls now,
     SyncTimestamp saveInterval ls None now commit w =
       Returns (Some e) (set_leadership (Some ls) w) ∧
     snapshot (set_leadership (Some ls) w) = snapshot w ∧
     lastSavedTime (set_leadership (Some ls) w) = lastSavedTime w) ∧
  (∀ now r w', UpdateTimestamp saveInterval now commit w = Returns r w' →
     lastSavedTime w' = lastSavedTime w ∧ etcd_timestamp w' = etcd_timestamp w ∧
     (r ≠ None → r = Some e ∧ w' = w)) ∧
  (∀ now prev last next,
     snapshot w = Some prev → lastSavedTime w = Some last →
     next = (if decide (updateTimestampGuard < SubTimeByWallClock now (physical prev))
             then now else Add (physical prev) Millisecond) →
     updateTimestampGuard < SubTimeByWallClock now (physical prev) ∨
       maxLogical / 2 < logical prev →
     SubTimeByWallClock last next ≤ updateTimestampGuard →
     UpdateTimestamp saveInterval now commit w =
       match leadership w with
       | Some _ => Returns (Some e) w
       | None => Panics NilLeadership
       end) ∧
  (∀ t c r w', saveTimestamp t c w = Returns r w' →
     lastSavedTime w' ≠ lastSavedTime w → c = CommitResp true ∧ r = None).
Proof.
  intros He. split; [|split; [|split; [|split]]].
  - intros t. rewrite saveTimestamp_cases, He. by destruct (leadership w).
  - intros ls now. split; [by apply SyncTimestamp_save_fails|done].
  - intros now r w' H.
    destruct (snapshot w) as [prev|] eqn:Hprev.
    + rewrite (UpdateTimestamp_unfold _ _ _ _ _ Hprev) in H.
      assert (∀ next, publishNext saveInterval next commit w = Returns r w' →
                lastSavedTime w' = lastSavedTime w ∧
                etcd_timestamp w' = etcd_timestamp w ∧ (r ≠ None → r = Some e ∧ w' = w))
        as Hpub.
      { intros next Hn. rewrite publishNext_cases in Hn.
        destruct (lastSavedTime w) as [last|] eqn:Hlast; [|discriminate].
        case_decide.
        - destruct (leadership w); [|discriminate].
          rewrite He in Hn. inversion Hn; subst. done.
        - inversion Hn; subst. simpl. done. }
      repeat case_decide; eauto.
      inversion H; subst. done.
    + rewrite UpdateTimestamp_nil in H by done. discriminate.
  - intros now prev last next Hprev Hlast -> Hchosen Hgap.
    rewrite (UpdateTimestamp_unfold _ _ _ _ _ Hprev).
    change (maxLogical / 2) with 131072 in Hchosen.
    change (maxLogical `quot` 2) with 131072.
    destruct (leadership w) as [ls|] eqn:Hl.
    + repeat case_decide; try lia;
        eapply publishNext_save_fails; eauto; by rewrite Hl.
    + repeat case_decide; try lia; by eapply publishNext_no_handle.
  - intros t c r w' H Hne. rewrite saveTimestamp_cases in H.
    destruct (leadership w); [|discriminate].
    destruct c as [err|[]]; simpl in H; inversion H; subst; done.
Qed.

(** ** ResetUserTimestamp *)

Section ResetUser.

Variable saveInterval : Duration.

Lemma ResetUserTimestamp_not_leader (tso : Z) (lease_valid : bool) (gap : Duration)
    (commit : CommitResult) (while_saving before_swap : World → World) (w : World) :
  Check (leadership w) lease_valid = false →
  ResetUserTimestamp saveInterval tso lease_valid gap commit while_saving before_swap w =
    Returns (Some (errors_New "Setup timestamp failed, lease expired")) w.
Proof. intros H. unfold ResetUserTimestamp. stepv. by rewrite H. Qed.

Lemma ResetUserTimestamp_nil (tso : Z) (lease_valid : bool) (gap : Duration)
    (commit : CommitResult) (while_saving before_swap : World → World) (w : World) :
  Check (leadership w) lease_valid = true →
  snapshot w = None →
  ResetUserTimestamp saveInterval tso lease_valid gap commit while_saving before_swap w =
    Panics NilPointerDereference.
Proof.
  unfold snapshot. intros H Hnil. unfold ResetUserTimestamp, ParseTS. stepv.
  rewrite H. cbn [negb fst]. stepv. by rewrite Hnil.
Qed.

Lemma ResetUserTimestamp_unfold (tso : Z) (lease_valid : bool) (gap : Duration)
    (commit : CommitResult) (while_saving before_swap : World → World) (w : World)
    (prev : atomicObject) :
  Check (leadership w) lease_valid = true →
  snapshot w = Some prev →
  ResetUserTimestamp saveInterval tso lease_valid gap commit while_saving before_swap w =
    if decide (SubTimeByWallClock (resetNext tso) (physical prev) ≤ 3 * updateTimestampGuard)
    then Returns (Some (errors_New "the specified ts too small than now")) w
    else if decide (gap ≤ SubTimeByWallClock (resetNext tso) (physical prev))
    then Returns (Some (errors_New "the specified ts too large than now")) w
    else saveAndSwap saveInterval (resetNext tso) (ts w) commit while_saving before_swap w.
Proof.
  unfold snapshot. intros H Hprev.
  unfold ResetUserTimestamp, resetNext, ParseTS. stepv.
  rewrite H. cbn [negb fst]. stepv. rewrite Hprev.
  repeat case_decide; reflexivity.
Qed.

Lemma saveAndSwap_fails (next : Time) (prev : option nat) (commit : CommitResult)
    (while_saving before_swap : World → World) (e : error) (w : World) :
  leadership (while_saving w) ≠ None →
  save_error commit = Some e →
  saveAndSwap saveInterval next prev commit while_saving before_swap w =
    Returns (Some e) (while_saving w).
Proof.
  intros Hl He. unfold saveAndSwap. do 2 stepv. rewrite saveTimestamp_cases.
  destruct (leadership (while_saving w)); [|done]. by rewrite He.
Qed.

Lemma saveAndSwap_no_handle (next : Time) (prev : option nat) (commit : CommitResult)
    (while_saving before_swap : World → World) (w : World) :
  leadership (while_saving w) = None →
  saveAndSwap saveInterval next prev commit while_saving before_swap w =
    Panics NilLeadership.
Proof.
  intros Hl. unfold saveAndSwap. do 2 stepv. rewrite saveTimestamp_cases. by rewrite Hl.
Qed.

Lemma saveAndSwap_ok (next : Time) (prev : option nat)
    (while_saving before_swap : World → World) (w : World) :
  leadership (while_saving w) ≠ None →
  let w1 := set_lastSavedTime (Some (Add next saveInterval))
              (set_etcd_timestamp (Some (Add next saveInterval)) (while_saving w)) in
  let w2 := before_swap (set_objects (objects w1 ++ [mkObject next 0]) w1) in
  saveAndSwap saveInterval next prev (CommitResp true) while_saving before_swap w =
    Returns None
      (if decide (ts w2 = prev) then set_ts (Some (length (objects w1))) w2 else w2).
Proof.
  intros Hl. unfold saveAndSwap, CompareAndSwapPointer. do 2 stepv.
  rewrite saveTimestamp_cases.
  destruct (leadership (while_saving w)); [|done]. cbn [save_error].
  case_decide; reflexivity.
Qed.

(** With nobody in between, an accepted reset under a handle publishes. *)
Lemma saveAndSwap_alone (next : Time) (w : World) :
  leadership w ≠ None →
  saveAndSwap saveInterval next (ts w) (CommitResp true) id id w =
    Returns None
      (published next
         (set_lastSavedTime (Some (Add next saveInterval))
            (set_etcd_timestamp (Some (Add next saveInterval)) w))).
Proof.
  intros Hl. rewrite saveAndSwap_ok by done. cbv zeta. unfold id.
  case_decide; [reflexivity|done].
Qed.

End ResetUser.

(** C6.  [ResetUserTimestamp] answers with an error and leaves the world as
    it was when the lease check fails, when [next - prev.physical] is at most
    three guards ("too small"), and when it is at least [maxResetTSGap()]
    ("too large"); [next] is the unpacked physical plus one millisecond. *)
Theorem C6_ResetUserTimestamp_rejects (saveInterval : Duration) (tso : Z)
    (lease_valid : bool) (gap : Duration) (commit : CommitResult)
    (while_saving before_swap : World → World) (w : World) :
  let next := Add (Z.shiftr tso 18 * Millisecond) Millisecond in
  let call := ResetUserTimestamp saveInterval tso lease_valid gap commit
                while_saving before_swap w in
  (Check (leadership w) lease_valid = false →
     call = Returns (Some (errors_New "Setup timestamp failed, lease expired")) w) ∧
  (∀ prev, snapshot w = Some prev →
     SubTimeByWallClock next (physical prev) ≤ 3 * updateTimestampGuard →
     ∃ e, call = Returns (Some e) w ∧
          (Check (leadership w) lease_valid = true →
           e = errors_New "the specified ts too small than now")) ∧
  (∀ prev, snapshot w = Some prev →
     gap ≤ SubTimeByWallClock next (physical prev) →
     ∃ e, call = Returns (Some e) w ∧
          (Check (leadership w) lease_valid = true →
           3 * updateTimestampGuard < SubTimeByWallClock next (physical prev) →
           e = errors_New "the specified ts too large than now")).
Proof.
  intros next call. split; [|split].
  - by apply ResetUserTimestamp_not_leader.
  - intros prev Hprev Hsmall. unfold call.
    destruct (Check (leadership w) lease_valid) eqn:Hl.
    + rewrite (ResetUserTimestamp_unfold _ _ _ _ _ _ _ _ _ Hl Hprev).
      change (resetNext tso) with next. case_decide; [|lia]. eauto.
    + rewrite ResetUserTimestamp_not_leader by done. eexists. split; [done|discriminate].
  - intros prev Hprev Hlarge. unfold call.
    destruct (Check (leadership w) lease_valid) eqn:Hl.
    + rewrite (ResetUserTimestamp_unfold _ _ _ _ _ _ _ _ _ Hl Hprev).
      change (resetNext tso) with next.
      case_decide.
      * eexists. split; [done|lia].
      * case_decide; [|lia]. eauto.
    + rewrite ResetUserTimestamp_not_leader by done. eexists. split; [done|discriminate].
Qed.

(** C7, the code at fault.  On the world of S4 (snapshot 10000 ms, key
    13000 ms) an operator asks for 10011 ms.  While the save of 13011 ms is on
    its way, or between that save and the swap, the background tick of
    10050 ms publishes [(10050 ms, 0)].  The swap of line 197 then finds
    another pointer than the one loaded at line 176 and does nothing, its
    result is dropped, and the call returns nil as if the reset had been
    made: the snapshot is the tick's, not the one asked for, the key holds
    the save of the reset, and no error tells the operator. *)
Lemma C7_failed_swap_returns_nil :
  let tick := inBackground (UpdateTimestamp (3 * Second) (10050 * Millisecond)
                              (CommitResp true)) in
  let reset := ResetUserTimestamp (3 * Second) (Z.shiftl 10010 18) true
                 (24 * 3600 * Second) (CommitResp true) in
  resetNext (Z.shiftl 10010 18) = 10011 * Millisecond ∧
  (∃ w',
     reset tick id world_S4 = Returns None w' ∧
     ts w' ≠ ts world_S4 ∧
     snapshot w' = Some (mkObject (10050 * Millisecond) 0) ∧
     snapshot w' ≠ Some (mkObject (resetNext (Z.shiftl 10010 18)) 0) ∧
     etcd_timestamp w' = Some (13011 * Millisecond)) ∧
  (∃ w',
     reset id tick world_S4 = Returns None w' ∧
     ts w' ≠ ts world_S4 ∧
     snapshot w' = Some (mkObject (10050 * Millisecond) 0) ∧
     snapshot w' ≠ Some (mkObject (resetNext (Z.shiftl 10010 18)) 0) ∧
     etcd_timestamp w' = Some (13011 * Millisecond)).
Proof.
  cbv zeta. split; [reflexivity|]. split.
  - eexists. split; [vm_compute; reflexivity|].
    split; [discriminate|]. split; [vm_compute; reflexivity|].
    split; [vm_compute; discriminate|reflexivity].
  - eexists. split; [vm_compute; reflexivity|].
    split; [discriminate|]. split; [vm_compute; reflexivity|].
    split; [vm_compute; discriminate|reflexivity].
Qed.

(** ** GetRespTS *)

Section Attempt.

Variables (count : Z) (e : attemptEnv) (resp : Timestamp).

Lemma notSynced_cases (w : World) :
  notSynced e resp w =
    if Check (leadership w) (lease_first e)
    then Returns (Continue resp) (while_asleep e w)
    else Returns (Return (mkTimestamp 0 0)
                    (Some (errors_New "can not get timestamp, may be not leader"))) w.
Proof. unfold notSynced. stepv. by destruct (Check _ _). Qed.

Lemma attempt_nil (w : World) :
  ts w = None →
  attempt count e resp w =
    if Check (leadership (after_load e w)) (lease_first e)
    then Returns (Continue resp, None) (while_asleep e (after_load e w))
    else Returns (Return (mkTimestamp 0 0)
                    (Some (errors_New "can not get timestamp, may be not leader")), None)
           (after_load e w).
Proof.
  intros H. unfold attempt. stepv. rewrite H. stepv.
  rewrite notSynced_cases. by destruct (Check _ _).
Qed.

Lemma attempt_dangling (w : World) (p : nat) :
  ts w = Some p → objects (after_load e w) !! p = None →
  attempt count e resp w = Panics NilPointerDereference.
Proof.
  intros H Hp. unfold attempt. stepv. rewrite H. stepv.
  unfold pointee. by rewrite Hp.
Qed.

Lemma attempt_sentinel (w : World) (p : nat) (o : atomicObject) :
  ts w = Some p → objects (after_load e w) !! p = Some o → physical o = ZeroTime →
  attempt count e resp w =
    if Check (leadership (after_load e w)) (lease_first e)
    then Returns (Continue resp, Some p) (while_asleep e (after_load e w))
    else Returns (Return (mkTimestamp 0 0)
                    (Some (errors_New "can not get timestamp, may be not leader")), Some p)
           (after_load e w).
Proof.
  intros H Hp Hz. unfold attempt. stepv. rewrite H. stepv.
  unfold pointee. rewrite Hp. case_decide; [|done].
  stepv. rewrite notSynced_cases. by destruct (Check _ _).
Qed.

Lemma attempt_add (w : World) (p : nat) (o : atomicObject) :
  ts w = Some p → objects (after_load e w) !! p = Some o → physical o ≠ ZeroTime →
  attempt count e resp w =
    let w2 := bumped p o count (after_load e w) in
    if decide (maxLogical ≤ Logical (answer o count))
    then Returns (Continue (answer o count), Some p) (while_asleep e w2)
    else if Check (leadership (after_add e w2)) (lease_second e)
    then Returns (Return (answer o count) None, Some p) (after_add e w2)
    else Returns (Return (mkTimestamp 0 0)
                    (Some (errors_New "alloc timestamp failed, lease expired")), Some p)
           (after_add e w2).
Proof.
  intros H Hp Hz. unfold attempt, AddInt64. stepv. rewrite H. stepv.
  unfold pointee. rewrite Hp. case_decide; [done|].
  stepv. rewrite Hp. stepv. unfold answer, bumped.
  cbn [Logical]. case_decide; [done|].
  stepv. by destruct (Check _ _).
Qed.

(** A turn that returns a timestamp has added [count] to a snapshot that is
    not the sentinel, and the sum is below [maxLogical]. *)
Lemma attempt_returns_nil (w w' : World) (r : Timestamp) (cur : option nat) :
  attempt count e resp w = Returns (Return r None, cur) w' →
  ∃ p o, cur = Some p ∧ ts w = Some p ∧ objects (after_load e w) !! p = Some o ∧
         physical o ≠ ZeroTime ∧ r = answer o count ∧ Logical r < maxLogical ∧
         w' = after_add e (bumped p o count (after_load e w)).
Proof.
  intros H. destruct (ts w) as [p|] eqn:Hts.
  - destruct (objects (after_load e w) !! p) as [o|] eqn:Hp.
    + destruct (decide (physical o = ZeroTime)) as [Hz|Hz].
      * rewrite (attempt_sentinel _ _ _ Hts Hp Hz) in H.
        destruct (Check _ _); discriminate.
      * rewrite (attempt_add _ _ _ Hts Hp Hz) in H. cbv zeta in H.
        case_decide as Hmax; [discriminate|].
        destruct (Check _ _); [|discriminate].
        inversion H; subst. exists p, o. repeat split; try done. lia.
    + rewrite (attempt_dangling _ _ Hts Hp) in H. discriminate.
  - rewrite (attempt_nil _ Hts) in H. destruct (Check _ _); discriminate.
Qed.

End Attempt.

(** *** The heap under concurrent adds *)

Lemma heap_grows_refl (w : World) : heap_grows w w.
Proof. intros p o H. exists o. split; [done|]. split; [done|lia]. Qed.

Lemma heap_grows_trans (w1 w2 w3 : World) :
  heap_grows w1 w2 → heap_grows w2 w3 → heap_grows w1 w3.
Proof.
  intros H12 H23 p o H.
  destruct (H12 p o H) as (o2 & H2 & Hph2 & Hl2).
  destruct (H23 p o2 H2) as (o3 & H3 & Hph3 & Hl3).
  exists o3. split; [done|]. split; [congruence|lia].
Qed.

Lemma others_id : others id.
Proof. intros w. split; [apply heap_grows_refl|done]. Qed.

Lemma calm_alone (lease_valid : bool) : calm (alone lease_valid).
Proof. split; [|split]; apply others_id. Qed.

Lemma bumped_lookup (p : nat) (o : atomicObject) (count : Z) (w : World) :
  objects w !! p = Some o →
  objects (bumped p o count w) !! p = Some (mkObject (physical o) (wrap64 (logical o + count))).
Proof.
  intros H. unfold bumped. simpl.
  apply list_lookup_insert_eq. by eapply lookup_lt_Some.
Qed.

Lemma bumped_int64 (p : nat) (o : atomicObject) (count : Z) (w : World) :
  int64_counters w → int64_counters (bumped p o count w).
Proof.
  intros Hw q oq. unfold bumped. simpl. intros H.
  destruct (decide (p = q)) as [->|Hne].
  - destruct (decide (q < length (objects w))%nat) as [Hlt|Hge].
    + rewrite list_lookup_insert_eq in H by done. inversion H; subst. simpl.
      apply wrap64_range.
    + rewrite list_insert_ge in H by lia. eauto.
  - rewrite list_lookup_insert_ne in H by done. eauto.
Qed.

Lemma bumped_heap_grows (p : nat) (o : atomicObject) (count : Z) (w : World) :
  objects w !! p = Some o →
  logical o ≤ wrap64 (logical o + count) →
  heap_grows w (bumped p o count w).
Proof.
  intros Hp Hle q oq Hq.
  destruct (decide (p = q)) as [->|Hne].
  - rewrite Hp in Hq. inversion Hq; subst.
    eexists. split; [by apply bumped_lookup|]. simpl. split; [done|lia].
  - exists oq. unfold bumped. simpl.
    rewrite list_lookup_insert_ne by done. split; [done|]. split; [done|lia].
Qed.

(** An add of a [uint32] that lands at or above [maxLogical] did not wrap. *)
Lemma overflow_add_exact (c count : Z) :
  - 2 ^ 63 ≤ c < 2 ^ 63 → 0 ≤ count < 2 ^ 32 →
  0 ≤ wrap64 (c + count) → wrap64 (c + count) = c + count.
Proof.
  intros Hc Hn Hpos.
  destruct (decide (c + count < 2 ^ 63)) as [Hlt|Hge].
  - apply wrap64_small. lia.
  - rewrite wrap64_over in Hpos by lia. lia.
Qed.

Section Loop.

Variables (count : Z) (envs : nat → attemptEnv).
Hypothesis count_uint32 : 0 ≤ count < 2 ^ 32.
Hypothesis envs_calm : ∀ i, calm (envs i).

Lemma attempt_continues (i : nat) (resp resp' : Timestamp) (cur : option nat)
    (w w' : World) :
  int64_counters w →
  attempt count (envs i) resp w = Returns (Continue resp', cur) w' →
  heap_grows w w' ∧ int64_counters w'.
Proof.
  intros Hw H.
  destruct (envs_calm i) as (Hload & _ & Hsleep).
  destruct (Hload w) as [Hg1 Ht1]. specialize (Ht1 Hw).
  assert (heap_grows w (while_asleep (envs i) (after_load (envs i) w)) ∧
          int64_counters (while_asleep (envs i) (after_load (envs i) w))) as Hwait.
  { destruct (Hsleep (after_load (envs i) w)) as [Hg2 Ht2].
    split; [by eapply heap_grows_trans|auto]. }
  destruct (ts w) as [p|] eqn:Hts.
  - destruct (objects (after_load (envs i) w) !! p) as [o|] eqn:Hp.
    + destruct (decide (physical o = ZeroTime)) as [Hz|Hz].
      * rewrite (attempt_sentinel _ _ _ _ _ _ Hts Hp Hz) in H.
        destruct (Check _ _); inversion H; subst; done.
      * rewrite (attempt_add _ _ _ _ _ _ Hts Hp Hz) in H. cbv zeta in H.
        case_decide as Hmax.
        -- inversion H; subst. clear H.
           pose proof (Ht1 p o Hp) as Hrange.
           unfold answer in Hmax. cbn [Logical] in Hmax. rewrite maxLogical_eq in Hmax.
           assert (wrap64 (logical o + count) = logical o + count) as Hexact
             by (apply overflow_add_exact; lia).
           destruct (Hsleep (bumped p o count (after_load (envs i) w))) as [Hg3 Ht3].
           split.
           ++ eapply heap_grows_trans; [exact Hg1|].
              eapply heap_grows_trans; [|exact Hg3].
              apply bumped_heap_grows; [done|lia].
           ++ apply Ht3. by apply bumped_int64.
        -- destruct (Check _ _); discriminate.
    + rewrite (attempt_dangling _ _ _ _ _ Hts Hp) in H. discriminate.
  - rewrite (attempt_nil _ _ _ _ Hts) in H.
    destruct (Check _ _); inversion H; subst; done.
Qed.

(** A call that returns a timestamp: somewhere after its start the add was
    made on the snapshot it returns from. *)
Lemma retryLoop_returns_nil (n : nat) : ∀ (i : nat) (resp r : Timestamp)
    (cur : option nat) (w w' : World),
  int64_counters w →
  retryLoop count envs n i resp w = Returns (r, None, cur) w' →
  ∃ p o j before,
    cur = Some p ∧ heap_grows w before ∧ int64_counters before ∧
    objects before !! p = Some o ∧ physical o ≠ ZeroTime ∧
    r = answer o count ∧ Logical r < maxLogical ∧
    w' = after_add (envs j) (bumped p o count before).
Proof.
  induction n as [|n IH]; intros i resp r cur w w' Hw H.
  - discriminate.
  - cbn [retryLoop] in H. unfold mbind, M_bind in H.
    destruct (attempt count (envs i) resp w) as [[[resp'|resp' err] cur'] w1|] eqn:Ha;
      [| |discriminate].
    + destruct (attempt_continues _ _ _ _ _ _ Hw Ha) as [Hg Ht].
      destruct (IH _ _ _ _ _ _ Ht H) as (p & o & j & before & ? & Hg' & ?).
      exists p, o, j, before. split; [done|]. split; [by eapply heap_grows_trans|done].
    + unfold mret, M_ret in H. inversion H; subst.
      destruct (attempt_returns_nil _ _ _ _ _ _ _ Ha)
        as (p & o & -> & Hts & Hp & Hz & -> & Hlt & ->).
      destruct (envs_calm i) as (Hload & _ & _).
      destruct (Hload w) as [Hg1 Ht1].
      exists p, o, i, (after_load (envs i) w).
      split; [done|]. split; [done|]. split; [auto|]. done.
Qed.

End Loop.

Lemma int64_counters_Forall (w : World) :
  Forall (λ o, - 2 ^ 63 ≤ logical o < 2 ^ 63) (objects w) → int64_counters w.
Proof. intros H p o Hp. by eapply (Forall_lookup_1 _ _ _ _ H Hp). Qed.

Lemma GetRespTS_current_positive (count : Z) (envs : nat → attemptEnv) (w : World) :
  count ≠ 0 →
  GetRespTS_current count envs w =
    retryLoop count envs maxRetryCount 0%nat (mkTimestamp 0 0) w.
Proof. intros H. unfold GetRespTS_current. by case_decide. Qed.

Lemma GetRespTS_projects (count : Z) (envs : nat → attemptEnv) (w w' : World)
    (r : Timestamp) (err : option error) (cur : option nat) :
  GetRespTS_current count envs w = Returns (r, err, cur) w' →
  GetRespTS count envs w = Returns (r, err) w'.
Proof. intros H. unfold GetRespTS. stepv. by rewrite H. Qed.

Lemma servedBy_bumped (count : Z) (p : nat) (o : atomicObject) (before : World) :
  objects before !! p = Some o → physical o ≠ ZeroTime →
  servedBy count p before (bumped p o count before) (answer o count).
Proof.
  intros Hp Hz. exists o. split; [done|]. split; [done|]. split; [done|].
  split.
  - unfold AddInt64. by rewrite Hp.
  - by apply bumped_lookup.
Qed.

(** Two atomic adds on one snapshot, in the order in which they happen and
    with anything monotone in between: the later one starts where the earlier
    one ended or above, so the two ranges do not meet. *)
Lemma servedBy_in_order (n1 n2 : Z) (p : nat) (b1 a1 b2 a2 : World)
    (r1 r2 : Timestamp) :
  0 ≤ n2 < 2 ^ 32 →
  servedBy n1 p b1 a1 r1 → heap_grows a1 b2 → int64_counters b2 →
  servedBy n2 p b2 a2 r2 → 0 ≤ Logical r2 →
  Logical r1 ≤ Logical r2 - n2 ∧ Physical r1 = Physical r2.
Proof.
  intros Hn2 (o1 & _ & _ & Hph1 & _ & Hafter1) Hg Hint
         (o2 & Ho2 & _ & Hph2 & Hadd2 & _) Hpos.
  destruct (Hg _ _ Hafter1) as (o2' & Ho2' & Hph & Hle).
  rewrite Ho2 in Ho2'. inversion Ho2'; subst o2'. clear Ho2'.
  simpl in Hph, Hle.
  unfold AddInt64 in Hadd2. rewrite Ho2 in Hadd2. inversion Hadd2 as [[Hl2 Ha2]].
  pose proof (Hint p o2 Ho2) as Hrange.
  rewrite <- Hl2 in Hpos.
  pose proof (overflow_add_exact (logical o2) n2 Hrange Hn2 Hpos) as Hexact.
  split; [lia|congruence].
Qed.

(** *** Calls that overlap *)

Lemma exec_app (s1 s2 : list event) : ∀ (g : pool) (w : World),
  exec (s1 ++ s2) g w =
    match exec s1 g w with
    | Returns g1 w1 => exec s2 g1 w1
    | Panics p => Panics p
    end.
Proof.
  induction s1 as [|e s1 IH]; intros g w; [done|].
  cbn [app exec]. unfold mbind, M_bind.
  destruct (step e g w) as [g1 w1|]; [apply IH|done].
Qed.

Lemma exec_snoc_inv (s : list event) (e : event) (g g' : pool) (w w' : World) :
  exec (s ++ [e]) g w = Returns g' w' →
  ∃ g1 w1, exec s g w = Returns g1 w1 ∧ step e g1 w1 = Returns g' w'.
Proof.
  rewrite exec_app. destruct (exec s g w) as [g1 w1|]; [|done].
  cbn [exec]. unfold mbind, M_bind. intros H.
  destruct (step e g1 w1) as [g2 w2|] eqn:Hs; [|done].
  inversion H; subst. eauto.
Qed.

Lemma exec_snoc (s : list event) (e : event) (g g1 g' : pool) (w w1 w' : World) :
  exec s g w = Returns g1 w1 → step e g1 w1 = Returns g' w' →
  exec (s ++ [e]) g w = Returns g' w'.
Proof.
  intros H1 H2. rewrite exec_app, H1. cbn [exec]. unfold mbind, M_bind.
  by rewrite H2.
Qed.

Lemma notSyncedStep_cases (lease_valid : bool) (turns : nat) (resp : Timestamp)
    (current : option nat) (w : World) :
  notSyncedStep lease_valid turns resp current w =
    if Check (leadership w) lease_valid
    then Returns (AtLoad turns resp) w
    else Returns (Finished (mkTimestamp 0 0)
                    (Some (errors_New "can not get timestamp, may be not leader"))
                    current) w.
Proof. unfold notSyncedStep. stepv. by destruct (Check _ _). Qed.

Lemma tstep_add (count : Z) (lease_valid : bool) (turns : nat) (resp : Timestamp)
    (p : nat) (o : atomicObject) (w : World) :
  objects w !! p = Some o → physical o ≠ ZeroTime →
  tstep count lease_valid (Loaded turns resp (Some p)) w =
    Returns (if decide (maxLogical ≤ Logical (answer o count))
             then AtLoad turns (answer o count)
             else Added (answer o count) (Some p))
      (bumped p o count w).
Proof.
  intros Hp Hz. unfold tstep, AddInt64. stepv. unfold pointee. rewrite Hp.
  case_decide; [done|]. stepv. rewrite Hp. stepv.
  unfold answer, bumped. cbn [Logical]. by case_decide.
Qed.

Lemma AddInt64_bumped (count : Z) (p : nat) (o : atomicObject) (w : World) :
  objects w !! p = Some o →
  AddInt64 p count w = Returns (wrap64 (logical o + count)) (bumped p o count w).
Proof. intros Hp. unfold AddInt64. by rewrite Hp. Qed.

(** A step of a goroutine leaves the world alone and gives it no timestamp
    it did not hold, or is the atomic add of line 307. *)
Lemma tstep_cases (count : Z) (lease_valid : bool) (pos pos' : position)
    (w w' : World) :
  tstep count lease_valid pos w = Returns pos' w' →
  (w' = w ∧ (claim pos' = None ∨ claim pos' = claim pos)) ∨
  (∃ turns resp p o,
     pos = Loaded turns resp (Some p) ∧ objects w !! p = Some o ∧
     physical o ≠ ZeroTime ∧ w' = bumped p o count w ∧
     (claim pos' = None ∨
      pos' = Added (answer o count) (Some p) ∧ Logical (answer o count) < maxLogical)).
Proof.
  intros H. destruct pos as [|turns resp|turns resp current|resp current|resp err current].
  - left. unfold tstep in H. case_decide; inversion H; subst; eauto.
  - left. destruct turns; unfold tstep in H; unfoldM; inversion H; subst; eauto.
  - destruct current as [p|].
    + destruct (objects w !! p) as [o|] eqn:Hp.
      * destruct (decide (physical o = ZeroTime)) as [Hz|Hz].
        -- left. unfold tstep in H. unfoldM. unfold pointee in H. rewrite Hp in H.
           cbv beta iota zeta in H. rewrite decide_True in H by done.
           rewrite notSyncedStep_cases in H.
           destruct (Check _ _); inversion H; subst; eauto.
        -- right. rewrite (tstep_add _ _ _ _ _ _ _ Hp Hz) in H.
           exists turns, resp, p, o.
           destruct (decide (maxLogical ≤ Logical (answer o count))) as [Hm|Hm];
             inversion H; subst; (do 4 (split; [done|]));
             [by left|right; split; [done|lia]].
      * unfold tstep in H. unfoldM. unfold pointee in H. by rewrite Hp in H.
    + left. unfold tstep in H. rewrite notSyncedStep_cases in H.
      destruct (Check _ _); inversion H; subst; eauto.
  - left. unfold tstep in H. unfoldM.
    destruct (Check _ _); cbn [negb] in H; inversion H; subst; [|by eauto].
    split; [done|]. right. by destruct current.
  - left. inversion H; subst. eauto.
Qed.

Lemma addedIn_later (g0 : pool) (w0 : World) (s : list event) (e : event)
    (i : nat) (n : Z) (p : nat) (r : Timestamp) :
  addedIn g0 w0 s i n p r → addedIn g0 w0 (s ++ [e]) i n p r.
Proof.
  intros (s1 & l & s2 & g1 & w1 & w2 & turns & resp & o & -> & H).
  exists s1, l, (s2 ++ [e]), g1, w1, w2, turns, resp, o.
  split; [|done]. by rewrite <- app_assoc.
Qed.

Lemma pool_lookup_insert (g : pool) (i j : nat) (x y : Z * position) :
  <[i := x]> g !! j = Some y →
  (j = i ∧ y = x ∧ is_Some (g !! i)) ∨ (j ≠ i ∧ g !! j = Some y).
Proof.
  intros H. destruct (decide (j = i)) as [->|Hne].
  - left. assert (i < length g)%nat as Hlt.
    { apply lookup_lt_Some in H. by rewrite length_insert in H. }
    rewrite list_lookup_insert_eq in H by done. inversion H.
    split; [done|]. split; [done|]. by apply lookup_lt_is_Some.
  - right. rewrite list_lookup_insert_ne in H by done. done.
Qed.

Lemma owns_no_claim (w : World) (n : Z) (pos : position) :
  claim pos = None → owns w n pos.
Proof. intros H p r Hc. congruence. Qed.

Lemma apart_no_claim_l (n m : Z) (pi pj : position) :
  claim pi = None → apart n pi m pj.
Proof. intros H p r1 r2 Hc. congruence. Qed.

Lemma apart_no_claim_r (n m : Z) (pi pj : position) :
  claim pj = None → apart n pi m pj.
Proof. intros H p r1 r2 _ Hc. congruence. Qed.

Lemma apart_sym (n m : Z) (pi pj : position) : apart n pi m pj → apart m pj n pi.
Proof. intros H p r1 r2 H1 H2. destruct (H p r2 r1 H2 H1); [by right|by left]. Qed.

Section Pool.

Variables (calls : list Z) (w0 : World).
Hypothesis counts : Forall (λ n, 0 < n < 2 ^ 32) calls.
Hypothesis counters : ∀ p o, objects w0 !! p = Some o → 0 ≤ logical o ≤ 2 ^ 62.

Lemma start_lookup (i : nat) (n : Z) (pos : position) :
  start calls !! i = Some (n, pos) → pos = Called.
Proof.
  unfold start. rewrite list_lookup_fmap.
  destruct (calls !! i); simpl; intros H; by inversion H.
Qed.

(** Along a run the counts stay, the counters stay within what the steps so
    far can have added, the timestamps held lie apart, and each was got by
    an atomic add of the run. *)
Lemma exec_exclusive (sched : list event) : ∀ (g : pool) (w : World),
  Forall bystander sched → Z.of_nat (length sched) ≤ 2 ^ 30 →
  exec sched (start calls) w0 = Returns g w →
  g.*1 = calls ∧
  (∀ p o, objects w !! p = Some o →
     0 ≤ logical o ≤ 2 ^ 62 + 2 ^ 32 * Z.of_nat (length sched)) ∧
  exclusive g w ∧
  (∀ i n pos p r, g !! i = Some (n, pos) → claim pos = Some (p, r) →
     addedIn (start calls) w0 sched i n p r).
Proof.
  induction sched as [|e s IH] using rev_ind; intros g w Hby Hlen Hrun.
  - inversion Hrun; subst. split; [|split; [|split; [split|]]].
    + unfold start. rewrite <- list_fmap_compose. apply list_fmap_id.
    + intros p o Hp. specialize (counters p o Hp). simpl. lia.
    + intros i n pos Hi. apply start_lookup in Hi as ->. by apply owns_no_claim.
    + intros i j n m pi pj _ Hi _. apply start_lookup in Hi as ->.
      by apply apart_no_claim_l.
    + intros i n pos p r Hi Hc. apply start_lookup in Hi as ->. discriminate.
  - apply exec_snoc_inv in Hrun as (g1 & w1 & Hrun1 & Hstep).
    apply Forall_app in Hby as [Hby1 Hbe]. rewrite length_app in Hlen. simpl in Hlen.
    destruct (IH g1 w1 Hby1 ltac:(lia) Hrun1) as (Hc & Hheap & [Hown Hapart] & Hhist).
    rewrite length_app. cbn [length].
    assert (∀ i n pos p r, g1 !! i = Some (n, pos) → claim pos = Some (p, r) →
              addedIn (start calls) w0 (s ++ [e]) i n p r) as Hhist'.
    { intros i n pos p r Hi Hcl. apply addedIn_later. by eapply Hhist. }
    destruct e as [i lease|f]; cbn [step] in Hstep.
    + destruct (g1 !! i) as [[n pos]|] eqn:Hi.
      2:{ inversion Hstep; subst. split; [done|]. split; [|done].
          intros p o Hp. specialize (Hheap p o Hp). lia. }
      unfold mbind, M_bind in Hstep.
      destruct (tstep n lease pos w1) as [pos' w'|] eqn:Ht; [|done].
      inversion Hstep; subst g w. clear Hstep.
      assert (0 < n < 2 ^ 32) as Hn.
      { assert (calls !! i = Some n) as Hci.
        { rewrite <- Hc, list_lookup_fmap, Hi. done. }
        rewrite Forall_lookup in counts. by eapply counts. }
      split.
      { rewrite <- Hc. apply list_eq. intros j. rewrite !list_lookup_fmap.
        destruct (decide (j = i)) as [->|Hne].
        - rewrite list_lookup_insert_eq by (by eapply lookup_lt_Some). by rewrite Hi.
        - by rewrite list_lookup_insert_ne. }
      destruct (tstep_cases _ _ _ _ _ _ Ht)
        as [[-> Hclaim]|(turns & resp & p & o & -> & Hp & Hz & -> & Hclaim)].
      * (* a step that leaves the world alone *)
        split; [intros q oq Hq; specialize (Hheap q oq Hq); lia|].
        split; [split|].
        -- intros j m pj Hj. apply pool_lookup_insert in Hj as [(-> & Heq & _)|[Hne Hj]].
           ++ inversion Heq; subst. destruct Hclaim as [Hcl|Hcl].
              ** by apply owns_no_claim.
              ** intros q r Hq. rewrite Hcl in Hq. by eapply Hown.
           ++ by eapply Hown.
        -- intros j k m m' pj pk Hjk Hj Hk.
           apply pool_lookup_insert in Hj as [(-> & Heq & _)|[Hne Hj]];
             apply pool_lookup_insert in Hk as [(-> & Heq' & _)|[Hne' Hk]];
             try done.
           ++ inversion Heq; subst. destruct Hclaim as [Hcl|Hcl].
              ** by apply apart_no_claim_l.
              ** intros q r1 r2 H1 H2. rewrite Hcl in H1.
                 by eapply (Hapart i k n m' pos pk).
           ++ inversion Heq'; subst. destruct Hclaim as [Hcl|Hcl].
              ** by apply apart_no_claim_r.
              ** intros q r1 r2 H1 H2. rewrite Hcl in H2.
                 by eapply (Hapart j i m n pj pos).
           ++ by eapply (Hapart j k).
        -- intros j m pj q r Hj Hq.
           apply pool_lookup_insert in Hj as [(-> & Heq & _)|[Hne Hj]].
           ++ inversion Heq; subst. destruct Hclaim as [Hcl|Hcl]; [congruence|].
              rewrite Hcl in Hq. by eapply Hhist'.
           ++ by eapply Hhist'.
      * (* the atomic add *)
        pose proof (Hheap p o Hp) as Hbound.
        assert (wrap64 (logical o + n) = logical o + n) as Hexact
          by (apply wrap64_small; lia).
        pose proof (bumped_lookup p o n w1 Hp) as Hafter. rewrite Hexact in Hafter.
        assert (∀ q oq, q ≠ p → objects (bumped p o n w1) !! q = Some oq →
                  objects w1 !! q = Some oq) as Hother.
        { intros q oq Hne. unfold bumped. simpl.
          by rewrite list_lookup_insert_ne. }
        assert (∀ m pj, owns w1 m pj → owns (bumped p o n w1) m pj) as Hkeep.
        { intros m pj Ho q r Hq. destruct (Ho q r Hq) as (oq & Hoq & Hph & H0 & Hle & Hmax).
          destruct (decide (q = p)) as [->|Hne].
          - rewrite Hp in Hoq. inversion Hoq; subst oq.
            eexists. split; [exact Hafter|]. simpl. repeat split; try done; lia.
          - exists oq. split; [|done]. unfold bumped. simpl.
            by rewrite list_lookup_insert_ne. }
        assert (∀ j m pj, j ≠ i → g1 !! j = Some (m, pj) →
                  claim pos' = None ∨
                  pos' = Added (answer o n) (Some p) ∧ Logical (answer o n) < maxLogical →
                  apart n pos' m pj) as Hnew.
        { intros j m pj Hne Hj [Hcl|[-> Hmax]]; [by apply apart_no_claim_l|].
          intros q r1 r2 H1 H2. cbn [claim] in H1. inversion H1; subst q r1.
          destruct (Hown j m pj Hj p r2 H2) as (oq & Hoq & _ & _ & Hle & _).
          rewrite Hp in Hoq. inversion Hoq; subst oq.
          right. unfold answer. cbn [Logical]. lia. }
        split.
        { intros q oq Hq. destruct (decide (q = p)) as [->|Hne].
          - rewrite Hafter in Hq. inversion Hq; subst. simpl. lia.
          - specialize (Hheap q oq (Hother q oq Hne Hq)). lia. }
        split; [split|].
        -- intros j m pj Hj. apply pool_lookup_insert in Hj as [(-> & Heq & _)|[Hne Hj]].
           ++ inversion Heq; subst. destruct Hclaim as [Hcl|[-> Hmax]].
              ** by apply owns_no_claim.
              ** intros q r Hq. cbn [claim] in Hq. inversion Hq; subst q r.
                 eexists. split; [exact Hafter|]. unfold answer in *.
                 cbn [Logical Physical physical logical] in *.
                 repeat split; try done; lia.
           ++ apply Hkeep. by eapply Hown.
        -- intros j k m m' pj pk Hjk Hj Hk.
           apply pool_lookup_insert in Hj as [(-> & Heq & _)|[Hne Hj]];
             apply pool_lookup_insert in Hk as [(-> & Heq' & _)|[Hne' Hk]];
             try done.
           ++ inversion Heq; subst. by eapply Hnew.
           ++ inversion Heq'; subst. apply apart_sym. by eapply Hnew.
           ++ by eapply (Hapart j k).
        -- intros j m pj q r Hj Hq.
           apply pool_lookup_insert in Hj as [(-> & Heq & _)|[Hne Hj]].
           ++ inversion Heq; subst. destruct Hclaim as [Hcl|[-> Hmax]]; [congruence|].
              cbn [claim] in Hq. inversion Hq; subst q r.
              exists s, lease, [], g1, w1, (bumped p o n w1), turns, resp, o.
              split; [done|]. split; [done|]. split; [done|]. split; [done|].
              split; [unfold answer; cbn [Logical]; lia|].
              split.
              { exists o. split; [done|]. split; [done|]. split; [done|].
                unfold answer. cbn [Logical]. split; [by apply AddInt64_bumped|].
                by apply bumped_lookup. }
              eapply exec_snoc; [done|]. cbn [step]. rewrite Hi.
              unfold mbind, M_bind. by rewrite Ht.
           ++ by eapply Hhist'.
    + (* a goroutine outside the pool *)
      unfold interleave, modify, mbind, M_bind, mret, M_ret in Hstep.
      inversion Hstep; subst g w. clear Hstep.
      rewrite Forall_singleton in Hbe. cbn [bystander] in Hbe.
      destruct (Hbe w1) as (news & Hobj & Hnews).
      split; [done|]. split; [|split; [split|]].
      * intros q oq Hq. rewrite Hobj in Hq.
        apply lookup_app_Some in Hq as [Hq|[_ Hq]].
        -- specialize (Hheap q oq Hq). lia.
        -- rewrite Forall_lookup in Hnews. rewrite (Hnews _ _ Hq). lia.
      * intros j m pj Hj q r Hq.
        destruct (Hown j m pj Hj q r Hq) as (oq & Hoq & H).
        exists oq. split; [|done]. rewrite Hobj. by apply lookup_app_l_Some.
      * done.
      * done.
Qed.

End Pool.

Lemma exec_cons (e : event) (s : list event) (g : pool) (w : World) :
  exec (e :: s) g w =
    match step e g w with
    | Returns g' w' => exec s g' w'
    | Panics p => Panics p
    end.
Proof. reflexivity. Qed.

Lemma step_alone (count : Z) (lease_valid : bool) (pos : position) (w : World) :
  step (Run 0 lease_valid) [(count, pos)] w =
    match tstep count lease_valid pos w with
    | Returns pos' w' => Returns [(count, pos')] w'
    | Panics p => Panics p
    end.
Proof. reflexivity. Qed.

Lemma step_other (f : World → World) (g : pool) (w : World) :
  step (Other f) g w = Returns g (f w).
Proof. reflexivity. Qed.

Lemma tstep_load (count : Z) (lease_valid : bool) (turns : nat) (resp : Timestamp)
    (w : World) :
  tstep count lease_valid (AtLoad (S turns) resp) w = Returns (Loaded turns resp (ts w)) w.
Proof. reflexivity. Qed.

Lemma tstep_nil (count : Z) (lease_valid : bool) (turns : nat) (resp : Timestamp)
    (w : World) :
  tstep count lease_valid (Loaded turns resp None) w =
    notSyncedStep lease_valid turns resp None w.
Proof. reflexivity. Qed.

Lemma tstep_sentinel (count : Z) (lease_valid : bool) (turns : nat) (resp : Timestamp)
    (p : nat) (o : atomicObject) (w : World) :
  objects w !! p = Some o → physical o = ZeroTime →
  tstep count lease_valid (Loaded turns resp (Some p)) w =
    notSyncedStep lease_valid turns resp (Some p) w.
Proof.
  intros Hp Hz. unfold tstep. unfoldM. unfold pointee. rewrite Hp.
  cbv beta iota zeta. by rewrite decide_True.
Qed.

Lemma tstep_check (count : Z) (lease_valid : bool) (resp : Timestamp)
    (current : option nat) (w : World) :
  tstep count lease_valid (Added resp current) w =
    if Check (leadership w) lease_valid
    then Returns (Finished resp None current) w
    else Returns (Finished (mkTimestamp 0 0)
                    (Some (errors_New "alloc timestamp failed, lease expired"))
                    current) w.
Proof. unfold tstep. unfoldM. by destruct (Check _ _). Qed.

(** A turn of the loop is the run of a goroutine that is alone in the pool,
    with what the others do as events in between. *)
Lemma attempt_in_steps (count : Z) (e : attemptEnv) (resp : Timestamp) (turns : nat)
    (w w' : World) (r : attemptResult) (cur : option nat) :
  attempt count e resp w = Returns (r, cur) w' →
  ∃ s, exec s [(count, AtLoad (S turns) resp)] w =
         Returns [(count, resume turns r cur)] w'.
Proof.
  intros H. destruct (ts w) as [p|] eqn:Hts.
  - destruct (objects (after_load e w) !! p) as [o|] eqn:Hp.
    + destruct (decide (physical o = ZeroTime)) as [Hz|Hz].
      * rewrite (attempt_sentinel _ _ _ _ _ _ Hts Hp Hz) in H.
        destruct (Check _ _) eqn:Hl; inversion H; subst.
        -- exists [Run 0 (lease_first e); Other (after_load e); Run 0 (lease_first e);
                   Other (while_asleep e)].
           rewrite exec_cons, step_alone, tstep_load, Hts.
           rewrite exec_cons, step_other.
           rewrite exec_cons, step_alone, (tstep_sentinel _ _ _ _ _ _ _ Hp Hz).
           rewrite notSyncedStep_cases, Hl. reflexivity.
        -- exists [Run 0 (lease_first e); Other (after_load e); Run 0 (lease_first e)].
           rewrite exec_cons, step_alone, tstep_load, Hts.
           rewrite exec_cons, step_other.
           rewrite exec_cons, step_alone, (tstep_sentinel _ _ _ _ _ _ _ Hp Hz).
           rewrite notSyncedStep_cases, Hl. reflexivity.
      * rewrite (attempt_add _ _ _ _ _ _ Hts Hp Hz) in H. cbv zeta in H.
        pose proof (tstep_add count (lease_first e) turns resp p o (after_load e w) Hp Hz)
          as Hadd.
        destruct (decide (maxLogical ≤ Logical (answer o count))) as [Hmax|Hmax].
        -- inversion H; subst.
           exists [Run 0 (lease_first e); Other (after_load e); Run 0 (lease_first e);
                   Other (while_asleep e)].
           rewrite exec_cons, step_alone, tstep_load, Hts.
           rewrite exec_cons, step_other.
           rewrite exec_cons, step_alone, Hadd. reflexivity.
        -- destruct (Check _ _) eqn:Hl; inversion H; subst.
           ++ exists [Run 0 (lease_first e); Other (after_load e); Run 0 (lease_first e);
                      Other (after_add e); Run 0 (lease_second e)].
              rewrite exec_cons, step_alone, tstep_load, Hts.
              rewrite exec_cons, step_other.
              rewrite exec_cons, step_alone, Hadd.
              rewrite exec_cons, step_other.
              rewrite exec_cons, step_alone, tstep_check, Hl. reflexivity.
           ++ exists [Run 0 (lease_first e); Other (after_load e); Run 0 (lease_first e);
                      Other (after_add e); Run 0 (lease_second e)].
              rewrite exec_cons, step_alone, tstep_load, Hts.
              rewrite exec_cons, step_other.
              rewrite exec_cons, step_alone, Hadd.
              rewrite exec_cons, step_other.
              rewrite exec_cons, step_alone, tstep_check, Hl. reflexivity.
    + rewrite (attempt_dangling _ _ _ _ _ Hts Hp) in H. discriminate.
  - rewrite (attempt_nil _ _ _ _ Hts) in H.
    destruct (Check _ _) eqn:Hl; inversion H; subst.
    + exists [Run 0 (lease_first e); Other (after_load e); Run 0 (lease_first e);
              Other (while_asleep e)].
      rewrite exec_cons, step_alone, tstep_load, Hts.
      rewrite exec_cons, step_other.
      rewrite exec_cons, step_alone, tstep_nil.
      rewrite notSyncedStep_cases, Hl. reflexivity.
    + exists [Run 0 (lease_first e); Other (after_load e); Run 0 (lease_first e)].
      rewrite exec_cons, step_alone, tstep_load, Hts.
      rewrite exec_cons, step_other.
      rewrite exec_cons, step_alone, tstep_nil.
      rewrite notSyncedStep_cases, Hl. reflexivity.
Qed.

Lemma retryLoop_in_steps (count : Z) (envs : nat → attemptEnv) (n : nat) :
  ∀ (i : nat) (resp : Timestamp) (w w' : World) (r : Timestamp) (err : option error)
    (cur : option nat),
  retryLoop count envs n i resp w = Returns (r, err, cur) w' →
  ∃ s, exec s [(count, AtLoad n resp)] w = Returns [(count, Finished r err cur)] w'.
Proof.
  induction n as [|n IH]; intros i resp w w' r err cur H.
  - inversion H; subst. exists [Run 0 true]. reflexivity.
  - cbn [retryLoop] in H. unfold mbind, M_bind in H.
    destruct (attempt count (envs i) resp w) as [[ar acur] w1|] eqn:Ha; [|done].
    destruct (attempt_in_steps _ _ _ n _ _ _ _ Ha) as (s1 & Hs1).
    destruct ar as [resp'|resp' err'].
    + destruct (IH _ _ _ _ _ _ _ H) as (s2 & Hs2).
      exists (s1 ++ s2). rewrite exec_app, Hs1. exact Hs2.
    + inversion H; subst. exists s1. exact Hs1.
Qed.

(** Every call of [GetRespTS] is the run of a goroutine of the pool. *)
Lemma GetRespTS_in_steps (count : Z) (envs : nat → attemptEnv) (w w' : World)
    (r : Timestamp) (err : option error) (cur : option nat) :
  GetRespTS_current count envs w = Returns (r, err, cur) w' →
  ∃ s, exec s (start [count]) w = Returns [(count, Finished r err cur)] w'.
Proof.
  unfold GetRespTS_current. case_decide as Hc.
  - intros H. inversion H; subst. exists [Run 0 true].
    cbn [exec step start map lookup list_lookup tstep]. unfold mbind, M_bind.
    rewrite decide_True by done. reflexivity.
  - intros H. destruct (retryLoop_in_steps _ _ _ _ _ _ _ _ _ _ H) as (s & Hs).
    exists (Run 0 true :: s).
    cbn [exec step start map lookup list_lookup tstep]. unfold mbind at 1 2, M_bind.
    rewrite decide_False by done. exact Hs.
Qed.

(** C2.  Calls of [GetRespTS] run as goroutines that overlap in any way, the
    methods that publish running in between: a call [GetRespTS(n)], [n > 0],
    that returns a timestamp [r] without an error got it from a snapshot [p]
    by one atomic add of the run, which took the counter of [p] from [c] to
    [c + n = Logical r]; [Logical r < maxLogical]; and another call that
    returns a timestamp of the same snapshot returns the same physical and a
    logical whose [m] values have none in common with [Logical r - n + 1 ..
    Logical r].  Every call of [GetRespTS] is such a goroutine.  (The counters
    start between 0 and [2^62] and the run has at most [2^30] steps: no
    [int64] wraps.) *)
Theorem C2_GetRespTS_owns_range (calls : list Z) (sched : list event)
    (w w' : World) (g : pool) :
  Forall (λ n, 0 < n < 2 ^ 32) calls →
  (∀ p o, objects w !! p = Some o → 0 ≤ logical o ≤ 2 ^ 62) →
  Forall bystander sched → Z.of_nat (length sched) ≤ 2 ^ 30 →
  exec sched (start calls) w = Returns g w' →
  (∀ count envs w0 w1 r err cur,
     GetRespTS_current count envs w0 = Returns (r, err, cur) w1 →
     GetRespTS count envs w0 = Returns (r, err) w1 ∧
     ∃ s, exec s (start [count]) w0 = Returns [(count, Finished r err cur)] w1) ∧
  ∀ i n r p, g !! i = Some (n, Finished r None (Some p)) →
    calls !! i = Some n ∧
    addedIn (start calls) w sched i n p r ∧
    Logical r < maxLogical ∧
    ∀ j m r', j ≠ i → g !! j = Some (m, Finished r' None (Some p)) →
      Physical r' = Physical r ∧
      ∀ v, Logical r - n < v ≤ Logical r → ¬ (Logical r' - m < v ≤ Logical r').
Proof.
  intros Hcalls Hcounters Hby Hlen Hrun.
  split.
  { intros count envs w0 w1 r err cur H. split; [|by eapply GetRespTS_in_steps].
    unfold GetRespTS, mbind, M_bind. by rewrite H. }
  destruct (exec_exclusive calls w Hcalls Hcounters sched g w' Hby Hlen Hrun)
    as (Hc & _ & [Hown Hapart] & Hhist).
  intros i n r p Hi.
  split; [by rewrite <- Hc, list_lookup_fmap, Hi|].
  split; [by eapply Hhist|].
  destruct (Hown i n _ Hi p r eq_refl) as (o & Ho & Hph & _ & _ & Hmax).
  split; [done|].
  intros j m r' Hji Hj.
  destruct (Hown j m _ Hj p r' eq_refl) as (o' & Ho' & Hph' & _).
  rewrite Ho in Ho'. inversion Ho'; subst o'.
  split; [congruence|].
  intros v Hv Hv'.
  destruct (Hapart i j n m _ _ ltac:(done) Hi Hj p r r' eq_refl eq_refl); lia.
Qed.

Lemma retryLoop_nil_below (count : Z) (envs : nat → attemptEnv) (n : nat) :
  ∀ (i : nat) (resp r : Timestamp) (cur : option nat) (w w' : World),
  retryLoop count envs n i resp w = Returns (r, None, cur) w' →
  Logical r < maxLogical.
Proof.
  induction n as [|n IH]; intros i resp r cur w w' H.
  - discriminate.
  - cbn [retryLoop] in H. unfold mbind, M_bind in H.
    destruct (attempt count (envs i) resp w) as [[[resp'|resp' err] cur'] w1|] eqn:Ha;
      [eauto| |discriminate].
    unfold mret, M_ret in H. inversion H; subst.
    by destruct (attempt_returns_nil _ _ _ _ _ _ _ Ha) as (p & o & _ & _ & _ & _ & _ & Hlt & _).
Qed.

(** Every turn of a loop that finds the counter too high adds [count] to it. *)
Lemma retryLoop_exhausted (count : Z) (lease_valid : bool) (p : nat) (n : nat) :
  0 ≤ count →
  ∀ (i : nat) (resp : Timestamp) (w : World) (o : atomicObject),
    ts w = Some p → objects w !! p = Some o → physical o ≠ ZeroTime →
    maxLogical ≤ logical o + count →
    logical o + Z.of_nat (S n) * count < 2 ^ 63 →
    retryLoop count (λ _, alone lease_valid) (S n) i resp w =
      Returns (mkTimestamp (UnixNano (physical o) `quot` Millisecond)
                 (logical o + Z.of_nat (S n) * count),
               Some (errors_New "can not get timestamp"), None)
        (set_objects
           (<[p := mkObject (physical o) (logical o + Z.of_nat (S n) * count)]> (objects w))
           w).
Proof.
  intros Hcount. induction n as [|n IH]; intros i resp w o Hts Hp Hz Hmax Hfit.
  - cbn [retryLoop]. unfold mbind, M_bind.
    rewrite (attempt_add count (alone lease_valid) resp w p o Hts Hp Hz). cbv zeta.
    unfold answer, bumped. cbn [Logical].
    rewrite maxLogical_eq in Hmax.
    rewrite wrap64_small by lia. rewrite maxLogical_eq.
    case_decide; [|lia].
    replace (Z.of_nat 1 * count) with count by lia. reflexivity.
  - remember (S n) as m eqn:Hm.
    cbn [retryLoop]. unfold mbind, M_bind.
    rewrite (attempt_add count (alone lease_valid) resp w p o Hts Hp Hz). cbv zeta.
    unfold answer, bumped. cbn [Logical].
    rewrite maxLogical_eq in Hmax.
    rewrite wrap64_small by lia. rewrite maxLogical_eq.
    case_decide; [|lia].
    change (while_asleep (alone lease_valid)) with (@id World). unfold id.
    change (after_load (alone lease_valid) w) with w.
    subst m.
    rewrite (IH (S i) _ _ (mkObject (physical o) (logical o + count))); simpl.
    + rewrite list_insert_insert_eq.
      replace (logical o + count + Z.of_nat (S n) * count)
        with (logical o + Z.of_nat (S (S n)) * count) by lia.
      reflexivity.
    + done.
    + apply list_lookup_insert_eq. by eapply lookup_lt_Some.
    + done.
    + rewrite maxLogical_eq. lia.
    + lia.
Qed.

(** A call that sleeps on a counter that has run out and finds another
    snapshot when it wakes is served from that one. *)
Lemma GetRespTS_served_later (count : Z) (envs : nat → attemptEnv) (w0 : World)
    (q q' : nat) (o0 o' : atomicObject) :
  count ≠ 0 →
  ts w0 = Some q → objects (after_load (envs 0%nat) w0) !! q = Some o0 →
  physical o0 ≠ ZeroTime →
  maxLogical ≤ Logical (answer o0 count) →
  let w1 := while_asleep (envs 0%nat) (bumped q o0 count (after_load (envs 0%nat) w0)) in
  ts w1 = Some q' → objects (after_load (envs 1%nat) w1) !! q' = Some o' →
  physical o' ≠ ZeroTime →
  Logical (answer o' count) < maxLogical →
  let w2 := after_add (envs 1%nat) (bumped q' o' count (after_load (envs 1%nat) w1)) in
  Check (leadership w2) (lease_second (envs 1%nat)) = true →
  GetRespTS_current count envs w0 = Returns (answer o' count, None, Some q') w2.
Proof.
  intros Hc Hts Hq Hz Hmax w1 Hts1 Hq' Hz' Hlt w2 Hl.
  rewrite GetRespTS_current_positive by done. unfold maxRetryCount.
  cbn [retryLoop]. unfold mbind at 1, M_bind at 1.
  rewrite (attempt_add _ _ _ _ _ _ Hts Hq Hz). cbv zeta.
  rewrite decide_True by done. fold w1.
  unfold mbind at 1, M_bind at 1.
  rewrite (attempt_add _ _ _ _ _ _ Hts1 Hq' Hz'). cbv zeta.
  rewrite decide_False by lia. fold w2. rewrite Hl. reflexivity.
Qed.

(** The methods that are not [GetRespTS] leave the heap and the pointer
    alone, or publish one fresh snapshot with its counter at 0. *)
Lemma runCall_publishes (saveInterval : Duration) (c : call) (w w' : World) :
  (∀ count lease_valid, c ≠ CallGet count lease_valid) →
  runCall saveInterval c w = Returns () w' →
  (objects w' = objects w ∧ ts w' = ts w) ∨
  (∃ next, objects w' = objects w ++ [mkObject next 0] ∧
           ts w' = Some (length (objects w))).
Proof.
  intros Hc H.
  destruct c as [[ls get now commit|now commit|tso lv gap commit]| |count lv];
    [| | | |by destruct (Hc count lv)].
  - cbn [runCall runOp] in H. unfold mbind, M_bind in H.
    destruct get as [e|].
    + rewrite SyncTimestamp_load_fails in H. inversion H; subst. by left.
    + destruct (save_error commit) as [e|] eqn:He.
      * rewrite (SyncTimestamp_save_fails _ _ _ _ _ _ He) in H. inversion H; subst.
        by left.
      * destruct commit as [err|[]]; try discriminate.
        rewrite SyncTimestamp_ok in H. cbv zeta in H. inversion H; subst.
        right. eexists. split; reflexivity.
  - cbn [runCall runOp] in H. unfold mbind, M_bind in H.
    destruct (snapshot w) as [prev|] eqn:Hprev.
    + rewrite (UpdateTimestamp_unfold _ _ _ _ _ Hprev) in H.
      assert (∀ next r w1, publishNext saveInterval next commit w = Returns r w1 →
                (objects w1 = objects w ∧ ts w1 = ts w) ∨
                (∃ next, objects w1 = objects w ++ [mkObject next 0] ∧
                         ts w1 = Some (length (objects w)))) as Hpub.
      { intros next r w1 Hn. rewrite publishNext_cases in Hn.
        destruct (lastSavedTime w); [|discriminate].
        case_decide.
        - destruct (leadership w); [|discriminate].
          destruct (save_error commit); inversion Hn; subst; [by left|].
          right. eexists. split; reflexivity.
        - inversion Hn; subst. right. eexists. split; reflexivity. }
      repeat case_decide.
      * destruct (publishNext saveInterval now commit w) as [r w1|] eqn:Hn; [|done].
        inversion H; subst. by eapply Hpub.
      * destruct (publishNext saveInterval _ commit w) as [r w1|] eqn:Hn; [|done].
        inversion H; subst. by eapply Hpub.
      * inversion H; subst. by left.
    + rewrite UpdateTimestamp_nil in H by done. discriminate.
  - cbn [runCall runOp] in H. unfold mbind, M_bind in H.
    destruct (Check (leadership w) lv) eqn:Hl.
    + assert (leadership w ≠ None) as Hls by (by destruct (leadership w)).
      destruct (snapshot w) as [prev|] eqn:Hprev.
      * rewrite (ResetUserTimestamp_unfold _ _ _ _ _ _ _ _ _ Hl Hprev) in H.
        repeat case_decide; try (inversion H; subst; by left).
        destruct (save_error commit) as [e|] eqn:He.
        -- rewrite (saveAndSwap_fails saveInterval _ _ _ id id _ w Hls He) in H.
           inversion H; subst. by left.
        -- destruct commit as [err|[]]; try discriminate.
           rewrite saveAndSwap_alone in H by done. inversion H; subst.
           right. eexists. split; reflexivity.
      * rewrite ResetUserTimestamp_nil in H by done. discriminate.
    + rewrite ResetUserTimestamp_not_leader in H by done. inversion H; subst. by left.
  - inversion H; subst. right. eexists. split; reflexivity.
Qed.

Lemma runCall_publishes_only (saveInterval : Duration) (c : call) :
  (∀ count lease_valid, c ≠ CallGet count lease_valid) →
  publishes_only (inBackground (runCall saveInterval c)).
Proof.
  intros Hc w. unfold inBackground.
  destruct (runCall saveInterval c w) as [[] w'|] eqn:H.
  - destruct (runCall_publishes _ _ _ _ Hc H) as [[Ho _]|(next & Ho & _)].
    + exists []. rewrite Ho, app_nil_r. done.
    + exists [mkObject next 0]. split; [done|]. by constructor.
  - exists []. by rewrite app_nil_r.
Qed.

(** C8, the specification as written does not hold: after [GetRespTS(262140)] and then
    [GetRespTS(10)] on the snapshot [(5000 ms, 0)], with no advance in between,
    the counter of the published snapshot is 262240, past [maxLogical]. *)
Lemma C8_counter_passes_maxLogical :
  ∃ r1 w1 r2 w2 o,
    GetRespTS 262140 (λ _, alone true) world_S3 = Returns r1 w1 ∧
    GetRespTS 10 (λ _, alone true) w1 = Returns r2 w2 ∧
    snapshot w2 = Some o ∧ logical o = 262240 ∧ ¬ (0 ≤ logical o < maxLogical).
Proof.
  do 5 eexists. split; [vm_compute; reflexivity|].
  split; [vm_compute; reflexivity|].
  split; [vm_compute; reflexivity|].
  split; [reflexivity|].
  rewrite maxLogical_eq. simpl. lia.
Qed.

(** C8, as the code has it.  [maxLogical] is [2^18] and every timestamp that
    [GetRespTS] returns has its logical part below it.  The counter of the
    snapshot is not held below it: the add comes before the test, so a turn
    whose add takes the counter to [maxLogical] or past it leaves the counter
    there, returns nothing from that snapshot, sleeps and lets the loop go on.
    An add that does not wrap never takes a counter down.

    The counter starts at 0: a method other than [GetRespTS] leaves the heap
    and the pointer alone or publishes one fresh snapshot whose counter is 0.
    At any instant of any run of overlapping calls, with such methods in
    between, no counter is below 0, and a call that returns a timestamp
    returns a logical from [n] up to [maxLogical], [maxLogical] excluded.
    A call whose add reaches [maxLogical] goes round the loop: it is served
    from the snapshot it finds after its sleep if its add stays below
    [maxLogical] there, and when nobody publishes it fails with "can not get
    timestamp" after [maxRetryCount] turns, each of which has added [count]. *)
Theorem C8_logical_bound (count : Z) (e : attemptEnv) (resp : Timestamp) (w : World)
    (p : nat) (o : atomicObject) :
  ts w = Some p → objects (after_load e w) !! p = Some o → physical o ≠ ZeroTime →
  maxLogical = 2 ^ 18 ∧
  (∀ envs w0 r cur w',
     GetRespTS_current count envs w0 = Returns (r, None, cur) w' →
     Logical r < maxLogical) ∧
  (maxLogical ≤ wrap64 (logical o + count) →
     attempt count e resp w =
       Returns (Continue (answer o count), Some p)
         (while_asleep e (bumped p o count (after_load e w))) ∧
     objects (bumped p o count (after_load e w)) !! p =
       Some (mkObject (physical o) (wrap64 (logical o + count)))) ∧
  (∀ r cur w', attempt count e resp w = Returns (Return r None, cur) w' →
     wrap64 (logical o + count) < maxLogical) ∧
  (0 ≤ count → - 2 ^ 63 ≤ logical o → logical o + count < 2 ^ 63 →
     logical o ≤ wrap64 (logical o + count)) ∧
  (∀ saveInterval c,
     (∀ n lease_valid, c ≠ CallGet n lease_valid) →
     publishes_only (inBackground (runCall saveInterval c)) ∧
     ∀ w0 w', runCall saveInterval c w0 = Returns () w' →
       (objects w' = objects w0 ∧ ts w' = ts w0) ∨
       (∃ next, objects w' = objects w0 ++ [mkObject next 0] ∧
                snapshot w' = Some (mkObject next 0))) ∧
  (∀ calls sched w0 g w',
     Forall (λ n, 0 < n < 2 ^ 32) calls →
     (∀ q oq, objects w0 !! q = Some oq → 0 ≤ logical oq ≤ 2 ^ 62) →
     Forall bystander sched → Z.of_nat (length sched) ≤ 2 ^ 30 →
     exec sched (start calls) w0 = Returns g w' →
     (∀ q oq, objects w' !! q = Some oq → 0 ≤ logical oq) ∧
     ∀ i n r q, g !! i = Some (n, Finished r None (Some q)) →
       n ≤ Logical r < maxLogical) ∧
  (∀ envs w0 q q' o0 o',
     count ≠ 0 →
     ts w0 = Some q → objects (after_load (envs 0%nat) w0) !! q = Some o0 →
     physical o0 ≠ ZeroTime →
     maxLogical ≤ Logical (answer o0 count) →
     let w1 := while_asleep (envs 0%nat)
                 (bumped q o0 count (after_load (envs 0%nat) w0)) in
     ts w1 = Some q' → objects (after_load (envs 1%nat) w1) !! q' = Some o' →
     physical o' ≠ ZeroTime →
     Logical (answer o' count) < maxLogical →
     let w2 := after_add (envs 1%nat)
                 (bumped q' o' count (after_load (envs 1%nat) w1)) in
     Check (leadership w2) (lease_second (envs 1%nat)) = true →
     GetRespTS_current count envs w0 = Returns (answer o' count, None, Some q') w2) ∧
  (∀ lease_valid w0 q o0,
     ts w0 = Some q → objects w0 !! q = Some o0 → physical o0 ≠ ZeroTime →
     0 < count → maxLogical ≤ logical o0 + count →
     logical o0 + Z.of_nat maxRetryCount * count < 2 ^ 63 →
     GetRespTS count (λ _, alone lease_valid) w0 =
       Returns (mkTimestamp (UnixNano (physical o0) `quot` Millisecond)
                  (logical o0 + Z.of_nat maxRetryCount * count),
                Some (errors_New "can not get timestamp"))
         (set_objects
            (<[q := mkObject (physical o0)
                      (logical o0 + Z.of_nat maxRetryCount * count)]> (objects w0))
            w0)).
Proof.
  intros Hts Hp Hz. split; [reflexivity|].
  split; [|split; [|split; [|split; [|split; [|split; [|split]]]]]].
  - intros envs w0 r cur w' H. unfold GetRespTS_current in H.
    case_decide; [discriminate|]. by eapply retryLoop_nil_below.
  - intros Hmax. split; [|by apply bumped_lookup].
    rewrite (attempt_add _ _ _ _ _ _ Hts Hp Hz). cbv zeta.
    unfold answer at 1. cbn [Logical]. by case_decide.
  - intros r cur w' H.
    destruct (attempt_returns_nil _ _ _ _ _ _ _ H)
      as (p' & o' & _ & Hts' & Hp' & _ & -> & Hlt & _).
    rewrite Hts in Hts'. inversion Hts'; subst p'.
    rewrite Hp in Hp'. inversion Hp'; subst o'. exact Hlt.
  - intros. rewrite wrap64_small; lia.
  - intros saveInterval c Hc. split; [by apply runCall_publishes_only|].
    intros w0 w' H.
    destruct (runCall_publishes _ _ _ _ Hc H) as [?|(next & Ho & Ht)]; [by left|].
    right. exists next. split; [done|].
    unfold snapshot, pointee. rewrite Ht, Ho. apply lookup_fresh.
  - intros calls sched w0 g w' Hcalls Hcounters Hby Hlen Hrun.
    destruct (exec_exclusive calls w0 Hcalls Hcounters sched g w' Hby Hlen Hrun)
      as (_ & Hheap & [Hown _] & _).
    split; [intros q oq Hq; by destruct (Hheap q oq Hq)|].
    intros i n r q Hi.
    destruct (Hown i n _ Hi q r eq_refl) as (oq & _ & _ & Hlow & _ & Hmax). lia.
  - intros envs w0 q q' o0 o'. apply GetRespTS_served_later.
  - intros lease_valid w0 q o0 Hts0 Hq Hz0 Hcount Hmax Hfit.
    unfold GetRespTS, mbind, M_bind.
    rewrite GetRespTS_current_positive by lia. unfold maxRetryCount in *.
    rewrite (retryLoop_exhausted count lease_valid q 9 ltac:(lia) _ _ w0 o0 Hts0 Hq Hz0 Hmax)
      by done.
    reflexivity.
Qed.

(** ** ResetTimestamp *)

Lemma keeps_unarmed_id : keeps_unarmed id.
Proof. intros w H. split; [done|apply heap_grows_refl]. Qed.

Lemma ResetTimestamp_unarmed (w : World) :
  ∃ w', ResetTimestamp w = Returns () w' ∧ unarmed w'.
Proof.
  eexists. split; [reflexivity|]. split; [reflexivity|].
  exists (mkObject ZeroTime 0). split; [|reflexivity].
  unfold snapshot. simpl. apply lookup_fresh.
Qed.

Lemma GetRespTS_unarmed (count : Z) (envs : nat → attemptEnv) (w : World) :
  count ≠ 0 → unarmed w → keeps_unarmed (after_load (envs 0%nat)) →
  GetRespTS count envs w =
    Returns (mkTimestamp 0 0,
             Some (errors_New "can not get timestamp, may be not leader"))
      (after_load (envs 0%nat) w) ∧
  unarmed (after_load (envs 0%nat) w).
Proof.
  intros Hcount Hw Hkeep.
  destruct (Hkeep w Hw) as [Hw1 Hg]. split; [|done].
  destruct Hw as (_ & o & Hsnap & Hz).
  unfold snapshot in Hsnap. destruct (ts w) as [p|] eqn:Hts; [|discriminate].
  simpl in Hsnap.
  destruct (Hg p o Hsnap) as (o' & Hp' & Hph & _).
  unfold GetRespTS, mbind, M_bind. rewrite GetRespTS_current_positive by done.
  unfold maxRetryCount. cbn [retryLoop]. unfold mbind, M_bind.
  rewrite (attempt_sentinel _ _ _ _ _ _ Hts Hp') by congruence.
  destruct Hw1 as (Hl & _). rewrite Hl. reflexivity.
Qed.

Lemma serve_unarmed (calls : list (Z * (nat → attemptEnv))) : ∀ w : World,
  unarmed w →
  Forall (λ c, c.1 ≠ 0 ∧ keeps_unarmed (after_load (c.2 0%nat))) calls →
  Forall (λ r, ∃ w', r = Returns (mkTimestamp 0 0,
                          Some (errors_New "can not get timestamp, may be not leader")) w' ∧
                     unarmed w')
    (serve calls w) ∧
  length (serve calls w) = length calls.
Proof.
  induction calls as [|[count envs] calls IH]; intros w Hw Hcalls.
  - split; [constructor|reflexivity].
  - inversion Hcalls as [|? ? [Hcount Hkeep] Hrest]; subst. simpl in Hcount, Hkeep.
    destruct (GetRespTS_unarmed count envs w Hcount Hw Hkeep) as [Hget Hw1].
    cbn [serve]. rewrite Hget.
    destruct (IH _ Hw1 Hrest) as [Hall Hlen].
    split; [constructor; eauto|]. simpl. by rewrite Hlen.
Qed.

(** The first call after a successful [SyncTimestamp] under a valid lease. *)
Lemma GetRespTS_after_sync (saveInterval : Duration) (ls : Leadership) (now : Time)
    (count : Z) (w : World) :
  0 < now → 0 < count < maxLogical →
  ∃ w' w'' next,
    SyncTimestamp saveInterval ls None now (CommitResp true) w = Returns None w' ∧
    GetRespTS count (λ _, alone true) w' =
      Returns (mkTimestamp (UnixNano next `quot` Millisecond) count, None) w''.
Proof.
  intros Hnow Hcount. rewrite maxLogical_eq in Hcount.
  rewrite SyncTimestamp_ok. cbv zeta.
  set (next := Z.max now _).
  do 2 eexists. exists next. split; [reflexivity|].
  unfold GetRespTS, mbind, M_bind. rewrite GetRespTS_current_positive by lia.
  unfold maxRetryCount. cbn [retryLoop]. unfold mbind, M_bind.
  erewrite attempt_add; [|reflexivity|apply lookup_fresh|simpl; unfold ZeroTime; lia].
  cbv zeta. unfold answer. cbn [physical logical Logical].
  rewrite wrap64_small by lia. rewrite maxLogical_eq.
  case_decide; [lia|]. simpl. reflexivity.
Qed.

(** C9, the specification as written does not hold: after [ResetTimestamp], a call with count
    zero is answered with the count error; and once a [SyncTimestamp] has
    started and failed, the handle it recorded makes a call wait for the
    snapshot and give up with "can not get timestamp". *)
Lemma C9_not_always_not_leader :
  ∃ w1 w2,
    ResetTimestamp world_S3 = Returns () w1 ∧
    GetRespTS 0 (λ _, alone true) w1 =
      Returns (mkTimestamp 0 0, Some (errors_New "tso count should be positive")) w1 ∧
    world_resynced w2 ∧
    GetRespTS 1 (λ _, alone true) w2 =
      Returns (mkTimestamp 0 0, Some (errors_New "can not get timestamp")) w2 ∧
    ¬ notLeader (errors_New "tso count should be positive") ∧
    ¬ notLeader (errors_New "can not get timestamp").
Proof.
  do 2 eexists. split; [reflexivity|]. split; [reflexivity|].
  split; [eexists; split; reflexivity|]. split; [vm_compute; reflexivity|].
  split; intros [H|H]; discriminate.
Qed.

(** C9, as the code has it.  [ResetTimestamp] publishes the sentinel and
    clears the handle; while they stay so, every [GetRespTS] with a count
    that is not zero answers "can not get timestamp, may be not leader", call
    after call, and [ResetUserTimestamp] is refused without a change; a
    [SyncTimestamp] that succeeds ends it: under a valid lease the next call
    gets a timestamp. *)
Theorem C9_ResetTimestamp_not_leader (saveInterval : Duration) (w : World)
    (calls : list (Z * (nat → attemptEnv))) :
  Forall (λ c, c.1 ≠ 0 ∧ keeps_unarmed (after_load (c.2 0%nat))) calls →
  ∃ w0, ResetTimestamp w = Returns () w0 ∧ unarmed w0 ∧
    Forall (λ r, ∃ w', r = Returns (mkTimestamp 0 0,
                            Some (errors_New "can not get timestamp, may be not leader")) w' ∧
                       unarmed w')
      (serve calls w0) ∧
    length (serve calls w0) = length calls ∧
    notLeader (errors_New "can not get timestamp, may be not leader") ∧
    (∀ tso lease_valid gap commit while_saving before_swap,
       ResetUserTimestamp saveInterval tso lease_valid gap commit while_saving
         before_swap w0 =
         Returns (Some (errors_New "Setup timestamp failed, lease expired")) w0) ∧
    (∀ ls now count, 0 < now → 0 < count < maxLogical →
       ∃ w' w'' next,
         SyncTimestamp saveInterval ls None now (CommitResp true) w0 = Returns None w' ∧
         GetRespTS count (λ _, alone true) w' =
           Returns (mkTimestamp (UnixNano next `quot` Millisecond) count, None) w'').
Proof.
  intros Hcalls.
  destruct (ResetTimestamp_unarmed w) as (w0 & Hreset & Hw0).
  exists w0. split; [done|]. split; [done|].
  destruct (serve_unarmed calls w0 Hw0 Hcalls) as [Hall Hlen].
  split; [done|]. split; [done|]. split; [by left|]. split.
  - intros. apply ResetUserTimestamp_not_leader.
    destruct Hw0 as [Hl _]. by rewrite Hl.
  - intros. by apply GetRespTS_after_sync.
Qed.

(** ** The invariants of a term *)

Section Term.

Variable saveInterval : Duration.
Hypothesis window : updateTimestampGuard ≤ saveInterval.

Lemma term_unchanged (w w' : World) :
  inTerm saveInterval w →
  snapshot w' = snapshot w → lastSavedTime w' = lastSavedTime w →
  etcd_timestamp w' = etcd_timestamp w →
  inTerm saveInterval w' ∧ stepsForward w w'.
Proof.
  intros (o & s & Ho & Hs & He & Hb) Ho' Hs' He'. split.
  - exists o, s. by rewrite Ho', Hs', He'.
  - exists o, s, o, s. rewrite Ho', He'. repeat split; try done; tlia.
Qed.

Lemma term_saved (w : World) (o : atomicObject) (s next : Time) :
  snapshot w = Some o → etcd_timestamp w = Some s →
  physical o ≤ next → s ≤ next + saveInterval →
  let w' := published next
              (set_lastSavedTime (Some (Add next saveInterval))
                 (set_etcd_timestamp (Some (Add next saveInterval)) w)) in
  inTerm saveInterval w' ∧ stepsForward w w'.
Proof.
  intros Ho He Hnext Hsave w'. split.
  - exists (mkObject next 0), (Add next saveInterval).
    split; [apply snapshot_published|]. unfold Add. simpl. repeat split; try done; tlia.
  - exists o, s, (mkObject next 0), (Add next saveInterval).
    split; [done|]. split; [done|]. split; [apply snapshot_published|].
    unfold Add. simpl. repeat split; try done; tlia.
Qed.

Lemma term_window_left (w : World) (next : Time) :
  inTerm saveInterval w →
  (∀ o, snapshot w = Some o → physical o ≤ next) →
  (∀ s, lastSavedTime w = Some s → updateTimestampGuard < s - next) →
  inTerm saveInterval (published next w) ∧ stepsForward w (published next w).
Proof.
  intros (o & s & Ho & Hs & He & Hb) Hnext Hgap.
  specialize (Hnext o Ho). specialize (Hgap s Hs). split.
  - exists (mkObject next 0), s.
    split; [apply snapshot_published|]. simpl. repeat split; try done; tlia.
  - exists o, s, (mkObject next 0), s.
    split; [done|]. split; [done|]. split; [apply snapshot_published|].
    simpl. repeat split; try done; tlia.
Qed.

Lemma publishNext_in_term (next : Time) (commit : CommitResult) (w : World) :
  inTerm saveInterval w → leadership w ≠ None →
  (∀ o, snapshot w = Some o → physical o + updateTimestampGuard ≤ next) →
  ∃ r w', publishNext saveInterval next commit w = Returns r w' ∧
          (inTerm saveInterval w' ∧ stepsForward w w') ∧ leadership w' = leadership w.
Proof.
  intros Hw Hl Hnext. pose proof Hw as (o & s & Ho & Hs & He & Hb).
  specialize (Hnext o Ho).
  rewrite publishNext_cases, Hs. unfold SubTimeByWallClock.
  case_decide as Hgap.
  - destruct (leadership w) eqn:Hls; [|done].
    destruct (save_error commit) as [e|].
    + do 2 eexists. split; [done|]. split; [|done]. by apply term_unchanged.
    + do 2 eexists. split; [done|]. split; [|done]. eapply term_saved; eauto; tlia.
  - do 2 eexists. split; [done|]. split; [|done]. apply term_window_left; [done| |].
    + intros o' Ho'. rewrite Ho in Ho'. inversion Ho'; subst. tlia.
    + intros s' Hs'. rewrite Hs in Hs'. inversion Hs'; subst. tlia.
Qed.

Lemma SyncTimestamp_in_term (ls : Leadership) (get : option error) (now : Time)
    (commit : CommitResult) (w : World) :
  inTerm saveInterval w →
  ∃ r w', SyncTimestamp saveInterval ls get now commit w = Returns r w' ∧
          (inTerm saveInterval w' ∧ stepsForward w w') ∧ leadership w' = Some ls.
Proof.
  intros Hw. pose proof Hw as (o & s & Ho & Hs & He & Hb).
  destruct get as [e|].
  - rewrite SyncTimestamp_load_fails. do 2 eexists. split; [done|].
    split; [|done]. by apply term_unchanged.
  - destruct (save_error commit) as [e|] eqn:Hc.
    + rewrite (SyncTimestamp_save_fails _ _ _ _ _ _ Hc). do 2 eexists. split; [done|].
      split; [|done]. by apply term_unchanged.
    + destruct commit as [err|[]]; try discriminate.
      rewrite SyncTimestamp_ok. cbv zeta. rewrite He. cbn [default].
      set (next := Z.max now (s + updateTimestampGuard)).
      assert (s + updateTimestampGuard ≤ next) by (unfold next; tlia).
      do 2 eexists. split; [done|]. split; [|done].
      pose proof (term_saved w o s next Ho He ltac:(tlia) ltac:(tlia)) as Hstep.
      exact Hstep.
Qed.

Lemma UpdateTimestamp_in_term (now : Time) (commit : CommitResult) (w : World) :
  inTerm saveInterval w → leadership w ≠ None →
  ∃ r w', UpdateTimestamp saveInterval now commit w = Returns r w' ∧
          (inTerm saveInterval w' ∧ stepsForward w w') ∧ leadership w' = leadership w.
Proof.
  intros Hw Hl. pose proof Hw as (o & s & Ho & Hs & He & Hb).
  rewrite (UpdateTimestamp_unfold _ _ _ _ _ Ho). unfold SubTimeByWallClock.
  case_decide as Hlag; [|case_decide as Hhalf].
  - apply publishNext_in_term; [done|done|].
    intros o' Ho'. rewrite Ho in Ho'. inversion Ho'; subst. tlia.
  - apply publishNext_in_term; [done|done|].
    intros o' Ho'. rewrite Ho in Ho'. inversion Ho'; subst.
    unfold Add, updateTimestampGuard. tlia.
  - do 2 eexists. split; [done|]. split; [|done]. by apply term_unchanged.
Qed.

Lemma Check_handle (ls : option Leadership) (lease_valid : bool) :
  Check ls lease_valid = true → ls ≠ None.
Proof. by destruct ls. Qed.

Lemma ResetUserTimestamp_in_term (tso : Z) (lease_valid : bool) (gap : Duration)
    (commit : CommitResult) (w : World) :
  inTerm saveInterval w →
  ∃ r w', ResetUserTimestamp saveInterval tso lease_valid gap commit id id w =
            Returns r w' ∧
          (inTerm saveInterval w' ∧ stepsForward w w') ∧ leadership w' = leadership w.
Proof.
  intros Hw. pose proof Hw as (o & s & Ho & Hs & He & Hb).
  destruct (Check (leadership w) lease_valid) eqn:Hl.
  - pose proof (Check_handle _ _ Hl) as Hls.
    rewrite (ResetUserTimestamp_unfold _ _ _ _ _ _ _ _ _ Hl Ho).
    unfold SubTimeByWallClock.
    case_decide as Hsmall; [|case_decide as Hlarge].
    + do 2 eexists. split; [done|]. split; [|done]. by apply term_unchanged.
    + do 2 eexists. split; [done|]. split; [|done]. by apply term_unchanged.
    + destruct (save_error commit) as [e|] eqn:Hc.
      * rewrite (saveAndSwap_fails saveInterval _ _ _ id id _ w Hls Hc). do 2 eexists.
        split; [done|]. split; [|done]. by apply term_unchanged.
      * destruct commit as [err|[]]; try discriminate.
        rewrite saveAndSwap_alone by done.
        do 2 eexists. split; [done|]. split; [|done].
        pose proof (term_saved w o s (resetNext tso) Ho He ltac:(tlia) ltac:(tlia)) as Hstep.
        exact Hstep.
  - rewrite ResetUserTimestamp_not_leader by done. do 2 eexists. split; [done|].
    split; [|done]. by apply term_unchanged.
Qed.

Lemma runOp_in_term (op : termOp) (w : World) :
  inTerm saveInterval w → leadership w ≠ None →
  ∃ r w', runOp saveInterval op w = Returns r w' ∧
          inTerm saveInterval w' ∧ stepsForward w w' ∧ leadership w' ≠ None.
Proof.
  intros Hw Hl.
  destruct op as [ls get now commit|now commit|tso lease_valid gap commit]; simpl.
  - destruct (SyncTimestamp_in_term ls get now commit w Hw)
      as (r & w' & -> & [? ?] & Hl').
    exists r, w'. rewrite Hl'. done.
  - destruct (UpdateTimestamp_in_term now commit w Hw Hl)
      as (r & w' & -> & [? ?] & Hl').
    exists r, w'. rewrite Hl'. done.
  - destruct (ResetUserTimestamp_in_term tso lease_valid gap commit w Hw)
      as (r & w' & -> & [? ?] & Hl').
    exists r, w'. rewrite Hl'. done.
Qed.

End Term.

(** X11.  The invariants hold of operations that run one at a time.  With a window
    of at least a guard, in a term under way and under a handle, each of
    [SyncTimestamp], [UpdateTimestamp] and [ResetUserTimestamp], run with
    nobody in between, returns, and from the world before to the world after
    the published physical does not go back (I1), the saved instant does not
    go back (I2), the saved instant is at least the published physical plus
    [updateTimestampGuard] (I4), and the term is still under way.  A
    successful [SyncTimestamp] puts any world into a term, above whatever
    instant the key held. *)
Theorem term_invariants_one_at_a_time (saveInterval : Duration) (op : termOp)
    (w : World) :
  updateTimestampGuard ≤ saveInterval →
  inTerm saveInterval w → leadership w ≠ None →
  (∃ r w', runOp saveInterval op w = Returns r w' ∧
           inTerm saveInterval w' ∧ stepsForward w w' ∧ leadership w' ≠ None) ∧
  (∀ ls now w0, ∃ w1,
     SyncTimestamp saveInterval ls None now (CommitResp true) w0 = Returns None w1 ∧
     inTerm saveInterval w1 ∧
     ∀ s, etcd_timestamp w0 = Some s →
          ∃ s', etcd_timestamp w1 = Some s' ∧ s ≤ s').
Proof.
  intros Hwin Hw Hl. split; [by apply runOp_in_term|].
  intros ls now w0. rewrite SyncTimestamp_ok. cbv zeta.
  set (next := Z.max now _).
  eexists. split; [reflexivity|]. split.
  - exists (mkObject next 0), (next + saveInterval).
    split; [unfold snapshot; simpl; apply lookup_fresh|].
    simpl. repeat split; try done; tlia.
  - intros s Hs. eexists. split; [reflexivity|].
    unfold next. rewrite Hs. simpl. unfold updateTimestampGuard, Millisecond in *. tlia.
Qed.

(** C1, the code at fault.  On the world of S4 (snapshot 10000 ms, key
    13000 ms, window 3 s) an operator asks for 10011 ms (lines 174-176).  While
    the save of line 190 is on its way, the tick of 13011.5 ms saves
    16011.5 ms and publishes [(13011.5 ms, 0)].  The save of the reset then
    writes 13011 ms over it, the swap of line 197 fails and the call returns
    nil.  The saved instant has gone back from 16011.5 ms to 13011 ms (against
    I2 and constraint 2 of lines 209-212), and it is below the published
    physical 13011.5 ms (against I4 and constraint 3): the world the call
    leaves is no term under way. *)
Lemma C1_reset_races_with_tick :
  inTerm (3 * Second) world_S4 ∧
  ∃ w1 w2,
    UpdateTimestamp (3 * Second) (13011 * Millisecond + 500000) (CommitResp true)
      world_S4 = Returns None w1 ∧
    inTerm (3 * Second) w1 ∧
    etcd_timestamp w1 = Some (16011 * Millisecond + 500000) ∧
    ResetUserTimestamp (3 * Second) (Z.shiftl 10010 18) true (24 * 3600 * Second)
      (CommitResp true)
      (inBackground (UpdateTimestamp (3 * Second) (13011 * Millisecond + 500000)
                       (CommitResp true)))
      id world_S4 = Returns None w2 ∧
    etcd_timestamp w2 = Some (13011 * Millisecond) ∧
    lastSavedTime w2 = Some (13011 * Millisecond) ∧
    snapshot w2 = Some (mkObject (13011 * Millisecond + 500000) 0) ∧
    13011 * Millisecond < 16011 * Millisecond + 500000 ∧
    13011 * Millisecond < 13011 * Millisecond + 500000 ∧
    ¬ stepsForward w1 w2 ∧ ¬ inTerm (3 * Second) w2.
Proof.
  split.
  { exists (mkObject (10000 * Millisecond) 0), (13000 * Millisecond).
    repeat split; try reflexivity; vm_compute; discriminate. }
  do 2 eexists. split; [vm_compute; reflexivity|]. split.
  { exists (mkObject (13011 * Millisecond + 500000) 0), (16011 * Millisecond + 500000).
    repeat split; try reflexivity; vm_compute; discriminate. }
  split; [reflexivity|]. split; [vm_compute; reflexivity|].
  split; [reflexivity|]. split; [reflexivity|]. split; [reflexivity|].
  split; [reflexivity|]. split; [reflexivity|]. split.
  - intros (o & s & o' & s' & Ho & Hs & Ho' & Hs' & _ & Hle & Hahead).
    vm_compute in Hs, Hs'. inversion Hs; subst s. inversion Hs'; subst s'.
    vm_compute in Hle. by apply Hle.
  - intros (o & s & Ho & Hs & _ & Hb).
    vm_compute in Ho, Hs. inversion Ho; subst o. inversion Hs; subst s.
    vm_compute in Hb. destruct Hb as [Hb _]. by apply Hb.
Qed.

(** ** When UpdateTimestamp is defined *)

Section Ready.

Variable saveInterval : Duration.














End Ready.


(** ** The scenarios of the specification *)

(** S1: cold start at 1000000 ms, then five timestamps. *)
Example scenario_S1 :
  ∃ w1 w2,
    SyncTimestamp (3 * Second) 1%nat None (1000000 * Millisecond) (CommitResp true)
      world_start = Returns None w1 ∧
    etcd_timestamp w1 = Some (1003000 * Millisecond) ∧
    snapshot w1 = Some (mkObject (1000000 * Millisecond) 0) ∧
    GetRespTS 5 (λ _, alone true) w1 = Returns (mkTimestamp 1000000 5, None) w2.
Proof.
  do 2 eexists. split; [vm_compute; reflexivity|].
  split; [reflexivity|]. split; [vm_compute; reflexivity|].
  vm_compute. reflexivity.
Qed.

(** S3: the counter runs out, the call sleeps, the tick rolls the physical
    forward, and the next turn is served from the new snapshot. *)
Example scenario_S3 :
  ∃ w1 w2,
    GetRespTS 262140 (λ _, alone true) world_S3 =
      Returns (mkTimestamp 5000 262140, None) w1 ∧
    GetRespTS 10
      (λ _, mkAttemptEnv id true id true
              (inBackground (UpdateTimestamp (3 * Second) (5000 * Millisecond)
                               (CommitResp true))))
      w1 = Returns (mkTimestamp 5001 10, None) w2.
Proof.
  do 2 eexists. split; [vm_compute; reflexivity|].
  vm_compute. reflexivity.
Qed.

(** S4: a reset to the timestamp of the snapshot itself is too small. *)
Example scenario_S4 :
  ResetUserTimestamp (3 * Second) (Z.shiftl 10000 18) true (24 * 3600 * Second)
    (CommitResp true) id id world_S4 =
  Returns (Some (errors_New "the specified ts too small than now")) world_S4.
Proof. vm_compute. reflexivity. Qed.

(** ** The theorems at work *)

(** Two calls on the snapshot of S3 that overlap, for five timestamps and
    for three: the second adds first and gets 1 .. 3, the first gets 4 .. 8. *)
Lemma C2_GetRespTS_owns_range_witness :
  exec overlapping (start [5; 3]) world_S3 =
    Returns [(5, Finished (mkTimestamp 5000 8) None (Some 0%nat));
             (3, Finished (mkTimestamp 5000 3) None (Some 0%nat))]
      (set_objects [mkObject (5000 * Millisecond) 8] world_S3) ∧
  ∀ v, 8 - 5 < v ≤ 8 → ¬ (3 - 3 < v ≤ 3).
Proof.
  assert (Forall (λ n, 0 < n < 2 ^ 32) [5; 3]) as Hcalls
    by (repeat constructor; lia).
  assert (∀ p o, objects world_S3 !! p = Some o → 0 ≤ logical o ≤ 2 ^ 62) as Hcounters.
  { intros [|p] o H; [|done]. inversion H; subst. simpl. lia. }
  assert (Forall bystander overlapping) as Hby by (repeat constructor).
  assert (Z.of_nat (length overlapping) ≤ 2 ^ 30) as Hlen by (simpl; lia).
  assert (exec overlapping (start [5; 3]) world_S3 =
            Returns [(5, Finished (mkTimestamp 5000 8) None (Some 0%nat));
                     (3, Finished (mkTimestamp 5000 3) None (Some 0%nat))]
              (set_objects [mkObject (5000 * Millisecond) 8] world_S3)) as Hrun
    by (vm_compute; reflexivity).
  split; [exact Hrun|].
  destruct (proj2 (C2_GetRespTS_owns_range [5; 3] overlapping world_S3 _ _
                     Hcalls Hcounters Hby Hlen Hrun)
              0%nat 5 (mkTimestamp 5000 8) 0%nat eq_refl)
    as (_ & _ & _ & Hexcl).
  exact (proj2 (Hexcl 1%nat 3 (mkTimestamp 5000 3) ltac:(done) eq_refl)).
Defined.

(** A tick 60 ms after the snapshot of S3 takes the clock and publishes
    (5060 ms, 0) without a save: the key is at 8000 ms. *)
Lemma C4_UpdateTimestamp_policy_witness :
  snapshot world_S3 = Some (mkObject (5000 * Millisecond) 0) ∧
  lastSavedTime world_S3 = Some (8000 * Millisecond) ∧
  leadership world_S3 ≠ None ∧
  ∃ w', UpdateTimestamp (3 * Second) (5060 * Millisecond) (CommitResp true) world_S3 =
          Returns None w' ∧
        snapshot w' = Some (mkObject (5060 * Millisecond) 0).
Proof.
  split; [reflexivity|]. split; [reflexivity|]. split; [discriminate|].
  destruct (proj1 (proj1 (C4_UpdateTimestamp_policy (3 * Second) (5060 * Millisecond)
                     (CommitResp true) world_S3 _ _ eq_refl eq_refl
                     ltac:(discriminate))
                   (5060 * Millisecond)
                   ltac:(left; split; [vm_compute; reflexivity|reflexivity]))
             ltac:(vm_compute; reflexivity))
    as (w' & Hcall & Hsnap & _).
  exists w'. split; [exact Hcall|exact Hsnap].
Defined.

(** A transaction whose leader comparison failed, on the world of S3. *)
Lemma C5_failed_save_publishes_nothing_witness :
  save_error (CommitResp false) =
    Some (errors_New "save timestamp failed, maybe we lost leader") ∧
  ∀ t, saveTimestamp t (CommitResp false) world_S3 =
         Returns (Some (errors_New "save timestamp failed, maybe we lost leader")) world_S3.
Proof.
  split; [reflexivity|].
  exact (proj1 (C5_failed_save_publishes_nothing (3 * Second) (CommitResp false) _
                  world_S3 eq_refl)).
Defined.

(** The reset of S4 is refused as too small. *)
Lemma C6_ResetUserTimestamp_rejects_witness :
  snapshot world_S4 = Some (mkObject (10000 * Millisecond) 0) ∧
  ∃ e, ResetUserTimestamp (3 * Second) (Z.shiftl 10000 18) true (24 * 3600 * Second)
         (CommitResp true) id id world_S4 = Returns (Some e) world_S4 ∧
       e = errors_New "the specified ts too small than now".
Proof.
  split; [reflexivity|].
  destruct (proj1 (proj2 (C6_ResetUserTimestamp_rejects (3 * Second) (Z.shiftl 10000 18)
                            true (24 * 3600 * Second) (CommitResp true) id id world_S4))
              _ eq_refl ltac:(vm_compute; discriminate))
    as (e & Hcall & He).
  exists e. split; [exact Hcall|]. exact (He eq_refl).
Defined.

(** A request for all of the [2^18] values at once is not served. *)
Lemma C8_logical_bound_witness :
  ts world_S3 = Some 0%nat ∧
  attempt 262144 (alone true) (mkTimestamp 0 0) world_S3 =
    Returns (Continue (mkTimestamp 5000 262144), Some 0%nat)
      (bumped 0 (mkObject (5000 * Millisecond) 0) 262144 world_S3).
Proof.
  split; [reflexivity|].
  refine (proj1 (proj1 (proj2 (proj2 (C8_logical_bound 262144 (alone true)
                         (mkTimestamp 0 0) world_S3 0%nat
                         (mkObject (5000 * Millisecond) 0) eq_refl eq_refl _))) _)).
  - vm_compute. discriminate.
  - vm_compute. discriminate.
Defined.

(** Two calls after the reset of the world of S3. *)
Lemma C9_ResetTimestamp_not_leader_witness :
  ∃ w0, ResetTimestamp world_S3 = Returns () w0 ∧ unarmed w0 ∧
        length (serve [(1, λ _, alone true); (7, λ _, alone false)] w0) = 2%nat.
Proof.
  assert (Forall (λ c : Z * (nat → attemptEnv),
                    c.1 ≠ 0 ∧ keeps_unarmed (after_load (c.2 0%nat)))
            [(1, λ _, alone true); (7, λ _, alone false)]) as Hcalls.
  { constructor; [split; [discriminate|apply keeps_unarmed_id]|].
    constructor; [split; [discriminate|apply keeps_unarmed_id]|].
    constructor. }
  destruct (C9_ResetTimestamp_not_leader (3 * Second) world_S3 _ Hcalls)
    as (w0 & Hreset & Hun & _ & Hlen & _).
  exists w0. split; [exact Hreset|]. split; [exact Hun|]. exact Hlen.
Defined.


(** * Further properties of the code *)

(** ** A call with nobody else running *)

Lemma same_but_counter_refl (w : World) : same_but_counter w w.
Proof. repeat split; eauto. Qed.

Lemma same_but_counter_trans (w1 w2 w3 : World) :
  same_but_counter w1 w2 → same_but_counter w2 w3 → same_but_counter w1 w3.
Proof.
  intros (Hl & Ht & Hm & He & Hn & Hq & Hs) (Hl' & Ht' & Hm' & He' & Hn' & Hq' & Hs').
  split; [congruence|]. split; [congruence|]. split; [congruence|].
  split; [congruence|]. split; [congruence|]. split.
  - intros q Hne. rewrite Hq' by congruence. by apply Hq.
  - intros o Ho. destruct (Hs o Ho) as (o2 & Ho2 & Hp2).
    destruct (Hs' o2 Ho2) as (o3 & Ho3 & Hp3). exists o3. split; [done|congruence].
Qed.

Lemma same_but_counter_bumped (p : nat) (o : atomicObject) (count : Z) (w : World) :
  ts w = Some p → objects w !! p = Some o →
  same_but_counter w (bumped p o count w).
Proof.
  intros Hts Hp. unfold bumped. split; [done|]. split; [done|]. split; [done|].
  split; [done|]. simpl. split; [apply length_insert|]. split.
  - intros q Hne. apply list_lookup_insert_ne. congruence.
  - intros o' Ho'. unfold snapshot, pointee in *. simpl. rewrite Hts in *.
    rewrite Hp in Ho'. inversion Ho'; subst o'.
    eexists. split; [apply list_lookup_insert_eq; by eapply lookup_lt_Some|done].
Qed.

Lemma pointer_ok_same (w w' : World) :
  pointer_ok w → same_but_counter w w' → pointer_ok w'.
Proof.
  intros [Hnil|[o Ho]] (_ & Ht & _ & _ & _ & _ & Hs).
  - left. congruence.
  - right. destruct (Hs o Ho) as (o' & Ho' & _). eauto.
Qed.

Section Alone.

Variables (count : Z) (lease_valid : bool).

(** What one turn does when nobody else runs. *)
Lemma attempt_alone (resp : Timestamp) (w : World) :
  pointer_ok w →
  ∃ res w', attempt count (alone lease_valid) resp w = Returns (res, ts w) w' ∧
    match res with
    | Continue resp' =>
        (unsynced w ∧ w' = w ∧ resp' = resp ∧ Check (leadership w) lease_valid = true) ∨
        (∃ p o, ts w = Some p ∧ objects w !! p = Some o ∧ physical o ≠ ZeroTime ∧
                resp' = answer o count ∧ maxLogical ≤ Logical resp' ∧
                w' = bumped p o count w)
    | Return r None =>
        ∃ p o, ts w = Some p ∧ objects w !! p = Some o ∧ physical o ≠ ZeroTime ∧
               r = answer o count ∧ Logical r < maxLogical ∧
               w' = bumped p o count w ∧ Check (leadership w) lease_valid = true
    | Return r (Some e) =>
        r = mkTimestamp 0 0 ∧
        ((unsynced w ∧ w' = w ∧ Check (leadership w) lease_valid = false ∧
          e = errors_New "can not get timestamp, may be not leader") ∨
         (∃ p o, ts w = Some p ∧ objects w !! p = Some o ∧ physical o ≠ ZeroTime ∧
                 w' = bumped p o count w ∧ Check (leadership w) lease_valid = false ∧
                 e = errors_New "alloc timestamp failed, lease expired"))
    end.
Proof.
  intros Hok. destruct (ts w) as [p|] eqn:Hts.
  - destruct Hok as [?|[o Ho]]; [congruence|].
    unfold snapshot, pointee in Ho. rewrite Hts in Ho.
    destruct (decide (physical o = ZeroTime)) as [Hz|Hz].
    + assert (unsynced w) as Hun.
      { right. exists o. split; [|done]. unfold snapshot, pointee. by rewrite Hts. }
      rewrite (attempt_sentinel count (alone lease_valid) resp w p o Hts Ho Hz).
      change (after_load (alone lease_valid) w) with w.
      change (lease_first (alone lease_valid)) with lease_valid.
      destruct (Check (leadership w) lease_valid) eqn:Hl; do 2 eexists; (split; [done|]).
      * left. done.
      * split; [done|]. left. done.
    + rewrite (attempt_add count (alone lease_valid) resp w p o Hts Ho Hz). cbv zeta.
      change (after_load (alone lease_valid) w) with w.
      change (lease_second (alone lease_valid)) with lease_valid.
      case_decide as Hmax.
      * do 2 eexists. split; [done|]. right. exists p, o. done.
      * change (leadership (after_add (alone lease_valid) (bumped p o count w)))
          with (leadership w).
        destruct (Check (leadership w) lease_valid) eqn:Hl; do 2 eexists; (split; [done|]).
        -- exists p, o. repeat split; try done. lia.
        -- split; [done|]. right. exists p, o. done.
  - assert (unsynced w) as Hun by (by left).
    rewrite (attempt_nil count (alone lease_valid) resp w Hts).
    change (after_load (alone lease_valid) w) with w.
    change (lease_first (alone lease_valid)) with lease_valid.
    destruct (Check (leadership w) lease_valid) eqn:Hl; do 2 eexists; (split; [done|]).
    + left. done.
    + split; [done|]. left. done.
Qed.

(** The whole loop when nobody else runs: it returns, nothing but the
    counter of the published snapshot has changed, and an answer without
    error comes from that snapshot under a valid lease. *)
Lemma retryLoop_alone (n : nat) : ∀ (i : nat) (resp : Timestamp) (w : World),
  pointer_ok w →
  ∃ r err cur w',
    retryLoop count (λ _, alone lease_valid) n i resp w = Returns (r, err, cur) w' ∧
    same_but_counter w w' ∧
    (int64_counters w → int64_counters w') ∧
    (err = None →
       ∃ p o0 o,
         ts w = Some p ∧ objects w !! p = Some o0 ∧ physical o = physical o0 ∧
         (int64_counters w → 0 ≤ count < 2 ^ 32 →
            logical o0 ≤ logical o ∧ - 2 ^ 63 ≤ logical o < 2 ^ 63) ∧
         r = answer o count ∧ Logical r < maxLogical ∧
         objects w' !! p = Some (mkObject (physical o) (Logical r)) ∧
         Check (leadership w) lease_valid = true).
Proof.
  induction n as [|n IH]; intros i resp w Hok.
  - do 4 eexists. split; [reflexivity|]. split; [apply same_but_counter_refl|].
    split; [done|]. discriminate.
  - cbn [retryLoop]. unfold mbind, M_bind.
    destruct (attempt_alone resp w Hok) as (res & w1 & -> & Hres).
    destruct res as [resp'|r [e|]].
    + destruct Hres as [(Hun & -> & -> & Hl)|(p & o & Hts & Hp & Hz & -> & Hmax & ->)].
      * by apply IH.
      * pose proof (same_but_counter_bumped p o count w Hts Hp) as Hsame.
        destruct (IH (S i) (answer o count) (bumped p o count w)
                    (pointer_ok_same _ _ Hok Hsame))
          as (r & err & cur & w' & Hrun & Hsame' & Hint' & Hnil).
        exists r, err, cur, w'. split; [done|].
        split; [by eapply same_but_counter_trans|].
        split; [intros Hint; apply Hint'; by apply bumped_int64|].
        intros Herr. destruct (Hnil Herr)
          as (p' & o0' & o' & Hts' & Hp' & Hph & Hmono & Hr & Hlt & Hw' & Hl).
        simpl in Hts'. rewrite Hts in Hts'. inversion Hts'; subst p'.
        rewrite (bumped_lookup p o count w Hp) in Hp'. inversion Hp'; subst o0'.
        exists p, o, o'. split; [done|]. split; [done|]. split; [done|].
        split; [|done].
        intros Hint Hcount. destruct (Hmono (bumped_int64 p o count w Hint) Hcount)
          as [Hle Hrange].
        split; [|done]. simpl in Hle.
        unfold answer in Hmax. cbn [Logical] in Hmax. rewrite maxLogical_eq in Hmax.
        pose proof (Hint p o Hp).
        rewrite overflow_add_exact in Hle by lia. lia.
    + do 4 eexists. split; [reflexivity|].
      destruct Hres as (_ & [(_ & -> & _)|(p & o & Hts & Hp & _ & -> & _)]).
      * split; [apply same_but_counter_refl|]. split; [done|]. discriminate.
      * split; [by apply same_but_counter_bumped|].
        split; [by apply bumped_int64|]. discriminate.
    + destruct Hres as (p & o & Hts & Hp & Hz & -> & Hlt & -> & Hl).
      do 4 eexists. split; [reflexivity|].
      split; [by apply same_but_counter_bumped|].
      split; [by apply bumped_int64|].
      intros _. exists p, o, o. split; [done|]. split; [done|]. split; [done|].
      split; [intros Hint _; split; [lia|by apply (Hint p o)]|].
      split; [done|]. split; [done|]. split; [by apply bumped_lookup|done].
Qed.

End Alone.

Lemma GetRespTS_inv (count : Z) (envs : nat → attemptEnv) (w w' : World)
    (r : Timestamp) (err : option error) :
  GetRespTS count envs w = Returns (r, err) w' →
  ∃ cur, GetRespTS_current count envs w = Returns (r, err, cur) w'.
Proof.
  unfold GetRespTS, mbind, M_bind, mret, M_ret. intros H.
  destruct (GetRespTS_current count envs w) as [[[r0 err0] cur] w0|]; [|discriminate].
  simpl in H. inversion H; subst. eauto.
Qed.

Lemma unsynced_pointer_ok (w : World) : unsynced w → pointer_ok w.
Proof. intros [H|(o & Ho & _)]; [by left|right; eauto]. Qed.

(** X2.  With nobody else running, [GetRespTS] returns in every world whose
    pointer is nil or valid, also before any snapshot exists, and leaves the
    handle, the pointer, the mirror, the key and every other snapshot as they
    were: at most the counter of the published snapshot has moved. *)
Theorem GetRespTS_touches_only_the_counter (count : Z) (lease_valid : bool) (w : World) :
  pointer_ok w →
  ∃ r err w',
    GetRespTS count (λ _, alone lease_valid) w = Returns (r, err) w' ∧
    same_but_counter w w'.
Proof.
  intros Hok. unfold GetRespTS, GetRespTS_current, mbind, M_bind. case_decide.
  - do 3 eexists. split; [reflexivity|apply same_but_counter_refl].
  - destruct (retryLoop_alone count lease_valid maxRetryCount 0%nat (mkTimestamp 0 0) w Hok)
      as (r & err & cur & w' & -> & Hsame & _).
    do 3 eexists. split; [reflexivity|done].
Qed.

Lemma retryLoop_unsynced_waits (count : Z) (lease_valid : bool) (w : World) (n : nat) :
  unsynced w → Check (leadership w) lease_valid = true →
  ∀ (i : nat) (resp : Timestamp),
    retryLoop count (λ _, alone lease_valid) n i resp w =
      Returns (resp, Some (errors_New "can not get timestamp"), None) w.
Proof.
  intros Hun Hl. induction n as [|n IH]; intros i resp; [reflexivity|].
  cbn [retryLoop]. unfold mbind, M_bind.
  destruct (attempt_alone count lease_valid resp w (unsynced_pointer_ok w Hun))
    as (res & w1 & -> & Hres).
  destruct res as [resp'|r [e|]].
  - destruct Hres as [(_ & -> & -> & _)|(p & o & Hts & Hp & Hz & _)]; [apply IH|].
    destruct Hun as [Hnil|(o' & Ho' & Hz')]; [congruence|].
    unfold snapshot, pointee in Ho'. rewrite Hts in Ho'. congruence.
  - destruct Hres as (_ & [(_ & _ & Hl' & _)|(p & o & _ & _ & _ & _ & Hl' & _)]);
      congruence.
  - destruct Hres as (p & o & Hts & Hp & Hz & _).
    destruct Hun as [Hnil|(o' & Ho' & Hz')]; [congruence|].
    unfold snapshot, pointee in Ho'. rewrite Hts in Ho'. congruence.
Qed.

(** X3.  While no snapshot is published (nil pointer or sentinel) and nobody
    else runs, a call with a non-zero count gets no timestamp and changes
    nothing: without a valid lease it is answered "may be not leader" at
    once, with one it waits [maxRetryCount] times and gives up with "can not
    get timestamp". *)
Theorem GetRespTS_without_snapshot (count : Z) (lease_valid : bool) (w : World) :
  unsynced w → count ≠ 0 →
  GetRespTS count (λ _, alone lease_valid) w =
    Returns (mkTimestamp 0 0,
             Some (errors_New (if Check (leadership w) lease_valid
                               then "can not get timestamp"
                               else "can not get timestamp, may be not leader")))
      w.
Proof.
  intros Hun Hcount. unfold GetRespTS, mbind, M_bind.
  rewrite GetRespTS_current_positive by done.
  destruct (Check (leadership w) lease_valid) eqn:Hl.
  - by rewrite retryLoop_unsynced_waits.
  - unfold maxRetryCount. cbn [retryLoop]. unfold mbind, M_bind.
    destruct (attempt_alone count lease_valid (mkTimestamp 0 0) w
                (unsynced_pointer_ok w Hun)) as (res & w1 & -> & Hres).
    destruct res as [resp'|r [e|]].
    + destruct Hres as [(_ & _ & _ & Hl')|(p & o & Hts & Hp & Hz & _)]; [congruence|].
      destruct Hun as [Hnil|(o' & Ho' & Hz')]; [congruence|].
      unfold snapshot, pointee in Ho'. rewrite Hts in Ho'. congruence.
    + destruct Hres as (-> & [(_ & -> & _ & ->)|(p & o & Hts & Hp & Hz & _)]);
        [reflexivity|].
      destruct Hun as [Hnil|(o' & Ho' & Hz')]; [congruence|].
      unfold snapshot, pointee in Ho'. rewrite Hts in Ho'. congruence.
    + destruct Hres as (p & o & _ & _ & _ & _ & _ & _ & Hl'). congruence.
Qed.

(** X4.  Once the counter of the snapshot leaves less than [count] values
    below [maxLogical] and no new snapshot is published, the call spends all
    its [maxRetryCount] turns: it ends with "can not get timestamp", each turn
    has added [count] to the counter, and the timestamp handed back with the
    error is the one of the last turn, not the empty one. *)
Theorem GetRespTS_exhausted (count : Z) (lease_valid : bool) (w : World) (p : nat)
    (o : atomicObject) :
  ts w = Some p → objects w !! p = Some o → physical o ≠ ZeroTime →
  0 < count → maxLogical ≤ logical o + count → logical o + 10 * count < 2 ^ 63 →
  GetRespTS count (λ _, alone lease_valid) w =
    Returns (mkTimestamp (UnixNano (physical o) `quot` Millisecond) (logical o + 10 * count),
             Some (errors_New "can not get timestamp"))
      (set_objects (<[p := mkObject (physical o) (logical o + 10 * count)]> (objects w)) w).
Proof.
  intros Hts Hp Hz Hcount Hmax Hfit. unfold GetRespTS, mbind, M_bind.
  rewrite GetRespTS_current_positive by lia. unfold maxRetryCount.
  rewrite (retryLoop_exhausted count lease_valid p 9 ltac:(lia) _ _ w o Hts Hp Hz Hmax)
    by (change (Z.of_nat 10) with 10; lia).
  reflexivity.
Qed.

Lemma attempt_nil_lease (count : Z) (e : attemptEnv) (resp r : Timestamp)
    (cur : option nat) (w w' : World) :
  attempt count e resp w = Returns (Return r None, cur) w' →
  Check (leadership w') (lease_second e) = true.
Proof.
  intros H. destruct (ts w) as [p|] eqn:Hts.
  - destruct (objects (after_load e w) !! p) as [o|] eqn:Hp.
    + destruct (decide (physical o = ZeroTime)) as [Hz|Hz].
      * rewrite (attempt_sentinel _ _ _ _ _ _ Hts Hp Hz) in H.
        destruct (Check _ _); discriminate.
      * rewrite (attempt_add _ _ _ _ _ _ Hts Hp Hz) in H. cbv zeta in H.
        case_decide; [discriminate|].
        destruct (Check _ _) eqn:Hl; [|discriminate].
        inversion H; subst. exact Hl.
    + rewrite (attempt_dangling _ _ _ _ _ Hts Hp) in H. discriminate.
  - rewrite (attempt_nil _ _ _ _ Hts) in H. destruct (Check _ _); discriminate.
Qed.

Lemma retryLoop_nil_lease (count : Z) (envs : nat → attemptEnv) (n : nat) :
  ∀ (i : nat) (resp r : Timestamp) (cur : option nat) (w w' : World),
  retryLoop count envs n i resp w = Returns (r, None, cur) w' →
  ∃ j, (i ≤ j < i + n)%nat ∧ Check (leadership w') (lease_second (envs j)) = true.
Proof.
  induction n as [|n IH]; intros i resp r cur w w' H; [discriminate|].
  cbn [retryLoop] in H. unfold mbind, M_bind in H.
  destruct (attempt count (envs i) resp w) as [[[resp'|resp' err] cur'] w1|] eqn:Ha;
    [| |discriminate].
  - destruct (IH _ _ _ _ _ _ H) as (j & Hj & Hl). exists j. split; [lia|done].
  - unfold mret, M_ret in H. inversion H; subst.
    exists i. split; [lia|]. by eapply attempt_nil_lease.
Qed.

(** X1.  [GetRespTS] hands out a timestamp only under a leadership handle
    whose lease was valid at the last check of the turn that returned: the
    count is not zero, the handle is set in the world it leaves, and one of
    the [maxRetryCount] turns found the lease valid.  With a cleared handle,
    or a lease that is never valid at that check, every call ends in an
    error, whatever the snapshot and whatever the other goroutines do. *)
Theorem GetRespTS_only_under_lease (count : Z) (envs : nat → attemptEnv)
    (w w' : World) (r : Timestamp) :
  GetRespTS count envs w = Returns (r, None) w' →
  count ≠ 0 ∧ leadership w' ≠ None ∧
  ∃ j, (j < maxRetryCount)%nat ∧ lease_second (envs j) = true.
Proof.
  intros H. destruct (GetRespTS_inv _ _ _ _ _ _ H) as (cur & Hc).
  unfold GetRespTS_current in Hc. case_decide as Hcount; [discriminate|].
  split; [done|].
  destruct (retryLoop_nil_lease _ _ _ _ _ _ _ _ _ Hc) as (j & Hj & Hl).
  split.
  - intros Hnone. rewrite Hnone in Hl. discriminate.
  - exists j. split; [lia|]. destruct (leadership w'); [done|discriminate].
Qed.

(** X5.  The timestamp of a call served with nobody else running, from a
    snapshot whose counter was not negative: its physical is the snapshot's
    in milliseconds and its logical lies in [count .. maxLogical - 1], so
    the values [L-count+1 .. L] are all in [1 .. maxLogical - 1]; a request
    for [maxLogical] timestamps or more is never served.  (The answer is taken
    non-negative: the [int64] counter has not wrapped.) *)
Theorem GetRespTS_logical_range (count : Z) (lease_valid : bool) (w w' : World)
    (r : Timestamp) (o : atomicObject) :
  0 < count < 2 ^ 32 → int64_counters w →
  snapshot w = Some o → 0 ≤ logical o →
  GetRespTS count (λ _, alone lease_valid) w = Returns (r, None) w' →
  0 ≤ Logical r →
  Physical r = UnixNano (physical o) `quot` Millisecond ∧
  logical o + count ≤ Logical r < maxLogical ∧ count < maxLogical.
Proof.
  intros Hcount Hint Ho Hnonneg H Hpos.
  assert (pointer_ok w) as Hok by (right; eauto).
  destruct (GetRespTS_inv _ _ _ _ _ _ H) as (cur & Hc).
  rewrite GetRespTS_current_positive in Hc by lia.
  destruct (retryLoop_alone count lease_valid maxRetryCount 0%nat (mkTimestamp 0 0) w Hok)
    as (r0 & err & cur0 & w0 & Hrun & _ & _ & Hnil).
  rewrite Hrun in Hc. inversion Hc; subst. clear Hc.
  destruct (Hnil eq_refl) as (p & o0 & o1 & Hts & Hp & Hph & Hmono & -> & Hlt & _).
  unfold snapshot, pointee in Ho. rewrite Hts in Ho. rewrite Hp in Ho.
  inversion Ho; subst o0.
  destruct (Hmono Hint ltac:(lia)) as [Hle Hrange].
  unfold answer in *. cbn [Logical Physical] in *.
  rewrite overflow_add_exact in * by lia.
  rewrite Hph. split; [done|]. lia.
Qed.

(** ** Ticks, terms and restarts *)

(** X7.  While the saved instant is more than a guard ahead of the [next] it
    has chosen, [UpdateTimestamp] does not go to etcd: whatever the store
    would answer, it publishes [(next, 0)] and returns nil, and the key and
    the mirror are as they were. *)
Theorem UpdateTimestamp_inside_window (saveInterval : Duration) (now : Time)
    (commit : CommitResult) (w : World) (prev : atomicObject) (last next : Time) :
  snapshot w = Some prev → lastSavedTime w = Some last →
  next = (if decide (updateTimestampGuard < SubTimeByWallClock now (physical prev))
          then now else Add (physical prev) Millisecond) →
  updateTimestampGuard < SubTimeByWallClock now (physical prev) ∨
    maxLogical / 2 < logical prev →
  updateTimestampGuard < SubTimeByWallClock last next →
  ∃ w', UpdateTimestamp saveInterval now commit w = Returns None w' ∧
        snapshot w' = Some (mkObject next 0) ∧
        etcd_timestamp w' = etcd_timestamp w ∧ lastSavedTime w' = lastSavedTime w ∧
        leadership w' = leadership w.
Proof.
  intros Hprev Hlast -> Hchosen Hgap.
  rewrite (UpdateTimestamp_unfold _ _ _ _ _ Hprev).
  change (maxLogical / 2) with 131072 in Hchosen.
  change (maxLogical `quot` 2) with 131072.
  case_decide; [|case_decide; [|lia]];
    rewrite (publishNext_window_left _ _ _ _ _ Hlast Hgap);
    (eexists; split; [reflexivity|]; split; [apply snapshot_published|done]).
Qed.

Lemma int64_counters_append (w w' : World) (next : Time) :
  objects w' = objects w ++ [mkObject next 0] →
  int64_counters w → int64_counters w'.
Proof.
  intros Hobj Hint p o Hp. rewrite Hobj in Hp.
  apply lookup_app_Some in Hp as [Hp|[_ Hp]]; [by eapply Hint|].
  destruct (p - length (objects w))%nat; [|done].
  inversion Hp; subst. simpl. lia.
Qed.

Lemma int64_counters_same (w w' : World) :
  objects w' = objects w → int64_counters w → int64_counters w'.
Proof. intros Hobj Hint p o Hp. rewrite Hobj in Hp. by eapply Hint. Qed.

Lemma quot_ms_lt (a b : Z) :
  0 ≤ a → a + Millisecond ≤ b → a `quot` Millisecond < b `quot` Millisecond.
Proof.
  unfold Millisecond. intros Ha Hb.
  rewrite !Z.quot_div_nonneg by lia.
  assert ((a + 1 * 1000000) / 1000000 ≤ b / 1000000) as H
    by (apply Z.div_le_mono; lia).
  rewrite Z.div_add in H by lia. lia.
Qed.

Lemma keptOrAdvanced_trans (w1 w2 w3 : World) :
  keptOrAdvanced w1 w2 → keptOrAdvanced w2 w3 → keptOrAdvanced w1 w3.
Proof.
  intros [[Ht Ho]|(o & o' & Hs & Hs' & Hle & Hz)] [[Ht' Ho']|(o2 & o2' & Hs2 & Hs2' & Hle2 & Hz2)].
  - left. split; congruence.
  - right. exists o2, o2'. split; [|done].
    unfold snapshot, pointee in *. by rewrite <- Ht, <- Ho.
  - right. exists o, o'. split; [done|]. split; [|done].
    unfold snapshot, pointee in *. by rewrite Ht', Ho'.
  - right. exists o, o2'. rewrite Hs' in Hs2. inversion Hs2; subst o2.
    split; [done|]. split; [done|]. split; [|done]. unfold Millisecond in *. lia.
Qed.

Section Ops.

Variable saveInterval : Duration.
Hypothesis window : updateTimestampGuard ≤ saveInterval.

Lemma published_advances (w w0 : World) (o : atomicObject) (next : Time) :
  snapshot w = Some o → physical o + Millisecond ≤ next →
  objects w0 = objects w →
  keptOrAdvanced w (published next w0) ∧
  (int64_counters w → int64_counters (published next w0)).
Proof.
  intros Ho Hnext Hobj. split.
  - right. exists o, (mkObject next 0). split; [done|].
    split; [apply snapshot_published|done].
  - apply int64_counters_append with next. unfold published. simpl. by rewrite Hobj.
Qed.

Lemma publishNext_advances (next : Time) (commit : CommitResult) (w : World)
    (o : atomicObject) :
  inTerm saveInterval w → leadership w ≠ None →
  snapshot w = Some o → physical o + Millisecond ≤ next →
  ∃ r w', publishNext saveInterval next commit w = Returns r w' ∧
          (inTerm saveInterval w' ∧ leadership w' ≠ None) ∧ keptOrAdvanced w w' ∧
          (int64_counters w → int64_counters w').
Proof.
  intros Hw Hl Ho Hnext.
  destruct (publishNext_in_term saveInterval window next commit w Hw Hl)
    as (r & w' & Hrun & [Hw' _] & Hl').
  { intros o' Ho'. rewrite Ho in Ho'. inversion Ho'; subst. tlia. }
  exists r, w'. split; [done|]. split; [split; [done|by rewrite Hl']|].
  rewrite publishNext_cases in Hrun.
  destruct (lastSavedTime w); [|congruence].
  case_decide.
  - destruct (leadership w); [|done].
    destruct (save_error commit).
    + inversion Hrun; subst. split; [by left|done].
    + inversion Hrun; subst. by eapply published_advances.
  - inversion Hrun; subst. by eapply published_advances.
Qed.

Lemma runOp_advances (op : termOp) (w : World) :
  inTerm saveInterval w → leadership w ≠ None →
  ∃ r w', runOp saveInterval op w = Returns r w' ∧
          (inTerm saveInterval w' ∧ leadership w' ≠ None) ∧ keptOrAdvanced w w' ∧
          (int64_counters w → int64_counters w').
Proof.
  intros Hw Hls. pose proof Hw as (o & s & Ho & Hs & He & Hb).
  destruct op as [ls get now commit|now commit|tso lease_valid gap commit]; simpl.
  - destruct (SyncTimestamp_in_term saveInterval window ls get now commit w Hw)
      as (r & w' & Hrun & [Hw' _] & Hl').
    exists r, w'. split; [done|]. split; [split; [done|by rewrite Hl']|].
    destruct get as [e|].
    + rewrite SyncTimestamp_load_fails in Hrun. inversion Hrun; subst. split; [by left|done].
    + destruct (save_error commit) as [e|] eqn:Hc.
      * rewrite (SyncTimestamp_save_fails _ _ _ _ _ _ Hc) in Hrun.
        inversion Hrun; subst. split; [by left|done].
      * destruct commit as [err|[]]; try discriminate.
        rewrite SyncTimestamp_ok in Hrun. cbv zeta in Hrun. rewrite He in Hrun.
        cbn [default] in Hrun. inversion Hrun; subst. split.
        -- right. exists o. eexists. split; [done|].
           split; [unfold snapshot; simpl; apply lookup_fresh|]. simpl. split; [tlia|done].
        -- apply int64_counters_append with (Z.max now (s + updateTimestampGuard)). done.
  - rewrite (UpdateTimestamp_unfold _ _ _ _ _ Ho). unfold SubTimeByWallClock.
    case_decide as Hlag; [|case_decide as Hhalf].
    + eapply publishNext_advances; [done|done|done|tlia].
    + eapply publishNext_advances; [done|done|done|tlia].
    + do 2 eexists. split; [done|]. split; [done|]. split; [by left|done].
  - destruct (ResetUserTimestamp_in_term saveInterval window tso lease_valid gap commit w Hw)
      as (r & w' & Hrun & [Hw' _] & Hl').
    exists r, w'. split; [done|]. split; [split; [done|by rewrite Hl']|].
    destruct (Check (leadership w) lease_valid) eqn:Hl.
    + rewrite (ResetUserTimestamp_unfold _ _ _ _ _ _ _ _ _ Hl Ho) in Hrun.
      unfold SubTimeByWallClock in Hrun.
      case_decide as Hsmall; [|case_decide as Hlarge].
      * inversion Hrun; subst. split; [by left|done].
      * inversion Hrun; subst. split; [by left|done].
      * destruct (save_error commit) as [e|] eqn:Hc.
        -- rewrite (saveAndSwap_fails saveInterval _ _ _ id id _ w Hls Hc) in Hrun.
           inversion Hrun; subst. split; [by left|done].
        -- destruct commit as [err|[]]; try discriminate.
           rewrite saveAndSwap_alone in Hrun by done.
           inversion Hrun; subst. eapply published_advances; [done|tlia|done].
    + rewrite ResetUserTimestamp_not_leader in Hrun by done.
      inversion Hrun; subst. split; [by left|done].
Qed.

Lemma runOps_advances (ops : list termOp) : ∀ w : World,
  inTerm saveInterval w → leadership w ≠ None →
  ∃ w', runOps saveInterval ops w = Returns () w' ∧
        inTerm saveInterval w' ∧ keptOrAdvanced w w' ∧
        (int64_counters w → int64_counters w').
Proof.
  induction ops as [|op ops IH]; intros w Hw Hl.
  - eexists. split; [reflexivity|]. split; [done|]. split; [by left|done].
  - cbn [runOps]. unfold mbind, M_bind.
    destruct (runOp_advances op w Hw Hl) as (r & w1 & -> & [Hw1 Hl1] & Hk1 & Hi1).
    destruct (IH w1 Hw1 Hl1) as (w' & Hrun & Hw' & Hk & Hi).
    exists w'. split; [done|]. split; [done|].
    split; [by eapply keptOrAdvanced_trans|auto].
Qed.

End Ops.

Lemma inTerm_same_but_counter (saveInterval : Duration) (w w' : World) :
  inTerm saveInterval w → same_but_counter w w' → inTerm saveInterval w'.
Proof.
  intros (o & s & Ho & Hs & He & Hb) (_ & _ & Hm & Hk & _ & _ & Hsnap).
  destruct (Hsnap o Ho) as (o' & Ho' & Hph).
  exists o', s. split; [done|]. split; [congruence|]. split; [congruence|].
  by rewrite Hph.
Qed.

(** X8.  In a term, with a window of at least a guard: a timestamp returned
    by [GetRespTS], then any run of [SyncTimestamp], [UpdateTimestamp] and
    [ResetUserTimestamp], then another timestamp returned by [GetRespTS]: the
    second is above the first, by its physical if a snapshot was published in
    between, by its logical otherwise.  (The calls run one at a time, the
    physical of the snapshot is not before the epoch, and the second answer
    is non-negative: the [int64] counter has not wrapped.) *)
Theorem timestamps_increase (saveInterval : Duration) (l1 l2 : bool) (n1 n2 : Z)
    (ops : list termOp) (w w1 w2 w3 : World) (r1 r2 : Timestamp) (o : atomicObject) :
  updateTimestampGuard ≤ saveInterval →
  inTerm saveInterval w → int64_counters w →
  snapshot w = Some o → 0 ≤ physical o →
  0 < n1 < 2 ^ 32 → 0 < n2 < 2 ^ 32 →
  GetRespTS n1 (λ _, alone l1) w = Returns (r1, None) w1 →
  runOps saveInterval ops w1 = Returns () w2 →
  GetRespTS n2 (λ _, alone l2) w2 = Returns (r2, None) w3 →
  0 ≤ Logical r2 →
  ts_lt r1 r2.
Proof.
  intros Hwin Hw Hint Ho Hepoch Hn1 Hn2 H1 Hops H2 Hpos.
  (* the first call *)
  destruct (GetRespTS_inv _ _ _ _ _ _ H1) as (cur1 & Hc1).
  rewrite GetRespTS_current_positive in Hc1 by lia.
  destruct (retryLoop_alone n1 l1 maxRetryCount 0%nat (mkTimestamp 0 0) w
              ltac:(right; eauto))
    as (r1' & err1 & cur1' & w1' & Hrun1 & Hsame1 & Hint1 & Hnil1).
  rewrite Hrun1 in Hc1. inversion Hc1; subst. clear Hc1.
  destruct (Hnil1 eq_refl) as (p & o0 & o1 & Hts & Hp & Hph1 & _ & -> & _ & Hafter1 & Hlease).
  unfold snapshot, pointee in Ho. rewrite Hts, Hp in Ho. inversion Ho; subst o0. clear Ho.
  pose proof (inTerm_same_but_counter _ _ _ Hw Hsame1) as Hw1.
  assert (ts w1 = Some p) as Hts1 by (destruct Hsame1 as (_ & -> & _); done).
  assert (snapshot w1 = Some (mkObject (physical o1) (Logical (answer o1 n1)))) as Hsnap1.
  { unfold snapshot, pointee. by rewrite Hts1. }
  (* the operations in between *)
  assert (leadership w1 ≠ None) as Hl1.
  { destruct Hsame1 as (-> & _). by eapply Check_handle. }
  destruct (runOps_advances saveInterval Hwin ops w1 Hw1 Hl1)
    as (w2' & Hrun & Hw2 & Hk & Hint2).
  rewrite Hrun in Hops. inversion Hops; subst w2'. clear Hops.
  (* the second call *)
  destruct (GetRespTS_inv _ _ _ _ _ _ H2) as (cur2 & Hc2).
  rewrite GetRespTS_current_positive in Hc2 by lia.
  destruct Hw2 as (ob & sb & Hob & _).
  destruct (retryLoop_alone n2 l2 maxRetryCount 0%nat (mkTimestamp 0 0) w2
              ltac:(right; eauto))
    as (r2' & err2 & cur2' & w3' & Hrun2 & _ & _ & Hnil2).
  rewrite Hrun2 in Hc2. inversion Hc2; subst. clear Hc2.
  destruct (Hnil2 eq_refl) as (p2 & o0' & o2 & Hts2 & Hp2 & Hph2 & Hmono & -> & _).
  destruct (Hmono (Hint2 (Hint1 Hint)) ltac:(lia)) as [Hle Hrange].
  unfold snapshot, pointee in Hob. rewrite Hts2, Hp2 in Hob. inversion Hob; subst ob.
  unfold ts_lt, answer in *. cbn [Physical Logical] in *.
  rewrite (overflow_add_exact (logical o2) n2) in * by lia.
  destruct Hk as [[Hkt Hko]|(oa & ob & Hsa & Hsb & Hadv & _)].
  - right. rewrite Hkt, Hts1 in Hts2. inversion Hts2; subst p2.
    rewrite Hko, Hafter1 in Hp2. inversion Hp2; subst o0'. simpl in *.
    split; [congruence|]. lia.
  - left. rewrite Hsnap1 in Hsa. inversion Hsa; subst oa.
    unfold snapshot, pointee in Hsb. rewrite Hts2, Hp2 in Hsb. inversion Hsb; subst ob.
    simpl in Hadv. unfold UnixNano. rewrite Hph2.
    apply quot_ms_lt; [congruence|done].
Qed.

Lemma SyncTimestamp_above_saved (saveInterval : Duration) (ls : Leadership)
    (now : Time) (w0 : World) (s : Time) :
  updateTimestampGuard ≤ saveInterval →
  etcd_timestamp w0 = Some s →
  ∃ w' o',
    SyncTimestamp saveInterval ls None now (CommitResp true) w0 = Returns None w' ∧
    snapshot w' = Some o' ∧ logical o' = 0 ∧
    s + updateTimestampGuard ≤ physical o' ∧ now ≤ physical o' ∧
    inTerm saveInterval w'.
Proof.
  intros Hwin Hs. rewrite SyncTimestamp_ok. cbv zeta. rewrite Hs. cbn [default].
  set (next := Z.max now (s + updateTimestampGuard)).
  do 2 eexists. split; [reflexivity|].
  split; [unfold snapshot; simpl; apply lookup_fresh|]. simpl.
  split; [done|]. split; [lia|]. split; [lia|].
  exists (mkObject next 0), (next + saveInterval).
  split; [unfold snapshot; simpl; apply lookup_fresh|].
  simpl. repeat split; try done; lia.
Qed.

(** X9.  Whatever the clock says, a term that starts where another one
    stopped starts above it.  Let a term be under way in [wA].  In a new
    process made by [NewTimestampOracle] over the same durable key, and in
    the same process after [ResetTimestamp], a successful [SyncTimestamp]
    publishes a snapshot with logical 0 whose physical is at least two guards
    above the one of [wA], hence a later millisecond. *)
Theorem SyncTimestamp_starts_above_previous_term (saveInterval : Duration)
    (wA : World) (oA : atomicObject) (ls : Leadership) (now : Time) :
  updateTimestampGuard ≤ saveInterval →
  inTerm saveInterval wA → snapshot wA = Some oA → 0 ≤ physical oA →
  (∃ wB oB,
     SyncTimestamp saveInterval ls None now (CommitResp true)
       (NewTimestampOracle (etcd_timestamp wA)) = Returns None wB ∧
     snapshot wB = Some oB ∧ logical oB = 0 ∧
     physical oA + 2 * updateTimestampGuard ≤ physical oB ∧
     UnixNano (physical oA) `quot` Millisecond < UnixNano (physical oB) `quot` Millisecond ∧
     inTerm saveInterval wB) ∧
  (∃ w1 wB oB,
     ResetTimestamp wA = Returns () w1 ∧
     SyncTimestamp saveInterval ls None now (CommitResp true) w1 = Returns None wB ∧
     snapshot wB = Some oB ∧ logical oB = 0 ∧
     physical oA + 2 * updateTimestampGuard ≤ physical oB ∧
     UnixNano (physical oA) `quot` Millisecond < UnixNano (physical oB) `quot` Millisecond ∧
     inTerm saveInterval wB).
Proof.
  intros Hwin (o & s & Ho & Hs & He & Hb) HoA Hepoch.
  rewrite HoA in Ho. inversion Ho; subst o. clear Ho.
  split.
  - destruct (SyncTimestamp_above_saved saveInterval ls now
                (NewTimestampOracle (etcd_timestamp wA)) s Hwin He)
      as (wB & oB & Hrun & HoB & Hz & Hge & _ & HwB).
    exists wB, oB. split; [done|]. split; [done|]. split; [done|].
    split; [lia|]. split; [|done].
    apply quot_ms_lt; [done|]. unfold UnixNano; tlia.
  - destruct (SyncTimestamp_above_saved saveInterval ls now
                (set_leadership None (published ZeroTime wA)) s Hwin He)
      as (wB & oB & Hrun & HoB & Hz & Hge & _ & HwB).
    exists (set_leadership None (published ZeroTime wA)), wB, oB.
    split; [reflexivity|]. split; [done|]. split; [done|]. split; [done|].
    split; [lia|]. split; [|done].
    apply quot_ms_lt; [done|]. unfold UnixNano; tlia.
Qed.

(** One call under a valid lease with room left in the counter. *)
Lemma GetRespTS_served_first_turn (count : Z) (w : World) (p : nat) (o : atomicObject)
    (ls : Leadership) :
  ts w = Some p → objects w !! p = Some o → physical o ≠ ZeroTime →
  leadership w = Some ls →
  0 < count → 0 ≤ logical o → logical o + count < maxLogical →
  GetRespTS count (λ _, alone true) w =
    Returns (mkTimestamp (UnixNano (physical o) `quot` Millisecond) (logical o + count), None)
      (set_objects (<[p := mkObject (physical o) (logical o + count)]> (objects w)) w).
Proof.
  intros Hts Hp Hz Hl Hcount Hnonneg Hroom. rewrite maxLogical_eq in Hroom.
  unfold GetRespTS, mbind, M_bind. rewrite GetRespTS_current_positive by lia.
  unfold maxRetryCount. cbn [retryLoop]. unfold mbind, M_bind.
  rewrite (attempt_add count (alone true) (mkTimestamp 0 0) w p o Hts Hp Hz). cbv zeta.
  unfold answer, bumped. cbn [Logical].
  rewrite wrap64_small by lia. rewrite maxLogical_eq.
  case_decide; [lia|].
  change (after_add (alone true)) with (@id World). unfold id. simpl.
  rewrite Hl. reflexivity.
Qed.

(** X6.  Under a valid lease, with nobody else running and room left below
    [maxLogical], a call is served at its first turn with the counter plus
    [count], and the next call with that plus its own count: the ranges of
    two calls in a row are adjacent, no value is skipped and none is given
    twice. *)
Theorem GetRespTS_adjacent_ranges (n1 n2 : Z) (w : World) (p : nat) (o : atomicObject)
    (ls : Leadership) :
  ts w = Some p → objects w !! p = Some o → physical o ≠ ZeroTime →
  leadership w = Some ls →
  0 < n1 → 0 < n2 → 0 ≤ logical o → logical o + n1 + n2 < maxLogical →
  ∃ r1 w1 r2 w2,
    GetRespTS n1 (λ _, alone true) w = Returns (r1, None) w1 ∧
    GetRespTS n2 (λ _, alone true) w1 = Returns (r2, None) w2 ∧
    Physical r1 = UnixNano (physical o) `quot` Millisecond ∧ Physical r2 = Physical r1 ∧
    Logical r1 = logical o + n1 ∧ Logical r2 - n2 = Logical r1 ∧
    snapshot w2 = Some (mkObject (physical o) (Logical r2)).
Proof.
  intros Hts Hp Hz Hl Hn1 Hn2 Hnonneg Hroom.
  pose proof (lookup_lt_Some _ _ _ Hp) as Hlt.
  do 4 eexists.
  split; [apply (GetRespTS_served_first_turn n1 w p o ls); try done; lia|].
  split.
  - apply (GetRespTS_served_first_turn n2 _ p (mkObject (physical o) (logical o + n1)) ls);
      simpl; try done; try lia.
    by apply list_lookup_insert_eq.
  - simpl. split; [done|]. split; [done|]. split; [done|]. split; [lia|].
    unfold snapshot, pointee. simpl. rewrite Hts.
    rewrite list_insert_insert_eq. by apply list_lookup_insert_eq.
Qed.

(** X10.  [UpdateTimestamp] does not check the leadership handle.  After
    [ResetTimestamp], a tick that finds the saved instant more than a guard
    ahead of the clock replaces the sentinel by [(now, 0)] while the handle
    stays cleared; a call is then refused with "alloc timestamp failed, lease
    expired" (not "may be not leader"), and the [count] values it added to the
    counter are spent. *)
Theorem UpdateTimestamp_rearms_after_reset (saveInterval : Duration) (now : Time)
    (commit : CommitResult) (count : Z) (lease_valid : bool) (w : World) (last : Time) :
  unarmed w → lastSavedTime w = Some last →
  updateTimestampGuard < now → updateTimestampGuard < SubTimeByWallClock last now →
  0 < count < maxLogical →
  ∃ w1 w2,
    UpdateTimestamp saveInterval now commit w = Returns None w1 ∧
    snapshot w1 = Some (mkObject now 0) ∧ leadership w1 = None ∧
    GetRespTS count (λ _, alone lease_valid) w1 =
      Returns (mkTimestamp 0 0,
               Some (errors_New "alloc timestamp failed, lease expired")) w2 ∧
    snapshot w2 = Some (mkObject now count).
Proof.
  intros (Hl & o & Ho & Hz) Hlast Hnow Hgap Hcount. rewrite maxLogical_eq in Hcount.
  rewrite (UpdateTimestamp_unfold _ _ _ _ _ Ho). rewrite Hz.
  unfold SubTimeByWallClock at 1. unfold ZeroTime.
  case_decide; [|lia].
  rewrite (publishNext_window_left _ _ _ _ _ Hlast Hgap).
  do 2 eexists. split; [reflexivity|]. split; [apply snapshot_published|].
  split; [done|].
  unfold GetRespTS, mbind, M_bind. rewrite GetRespTS_current_positive by lia.
  unfold maxRetryCount. cbn [retryLoop]. unfold mbind, M_bind.
  rewrite (attempt_add count (alone lease_valid) (mkTimestamp 0 0) (published now w)
             (length (objects w)) (mkObject now 0) eq_refl (lookup_fresh _ _))
    by (simpl; unfold ZeroTime, updateTimestampGuard, Millisecond in *; lia).
  cbv zeta. unfold answer, bumped. cbn [Logical logical physical].
  rewrite wrap64_small by lia. rewrite maxLogical_eq.
  case_decide; [lia|].
  change (after_add (alone lease_valid)) with (@id World). unfold id. simpl.
  rewrite Hl. simpl. split; [reflexivity|].
  unfold snapshot, pointee. simpl.
  apply list_lookup_insert_eq. rewrite length_app. simpl. lia.
Qed.

(** ** The further theorems at work *)

(** The term invariants for a tick at 5060 ms on the snapshot of S3. *)
Lemma term_invariants_one_at_a_time_witness :
  updateTimestampGuard ≤ 3 * Second ∧ inTerm (3 * Second) world_S3 ∧
  leadership world_S3 ≠ None ∧
  ∃ r w', UpdateTimestamp (3 * Second) (5060 * Millisecond) (CommitResp true) world_S3 =
            Returns r w' ∧
          inTerm (3 * Second) w' ∧ stepsForward world_S3 w' ∧ leadership w' ≠ None.
Proof.
  assert (updateTimestampGuard ≤ 3 * Second) as Hwin by (vm_compute; discriminate).
  assert (inTerm (3 * Second) world_S3) as Hterm.
  { exists (mkObject (5000 * Millisecond) 0), (8000 * Millisecond).
    repeat split; try reflexivity; vm_compute; discriminate. }
  assert (leadership world_S3 ≠ None) as Hl by discriminate.
  split; [exact Hwin|]. split; [exact Hterm|]. split; [exact Hl|].
  exact (proj1 (term_invariants_one_at_a_time (3 * Second)
                  (OpUpdate (5060 * Millisecond) (CommitResp true)) world_S3
                  Hwin Hterm Hl)).
Defined.

(** A call for five timestamps on the snapshot of S3. *)
Lemma GetRespTS_only_under_lease_witness :
  GetRespTS 5 (λ _, alone true) world_S3 =
    Returns (mkTimestamp 5000 5, None)
      (bumped 0 (mkObject (5000 * Millisecond) 0) 5 world_S3) ∧
  leadership (bumped 0 (mkObject (5000 * Millisecond) 0) 5 world_S3) ≠ None.
Proof.
  assert (GetRespTS 5 (λ _, alone true) world_S3 =
            Returns (mkTimestamp 5000 5, None)
              (bumped 0 (mkObject (5000 * Millisecond) 0) 5 world_S3)) as H
    by (vm_compute; reflexivity).
  split; [exact H|].
  exact (proj1 (proj2 (GetRespTS_only_under_lease _ _ _ _ _ H))).
Defined.

(** A call in a process that has just started. *)
Lemma GetRespTS_touches_only_the_counter_witness :
  pointer_ok (NewTimestampOracle None) ∧
  ∃ r err w',
    GetRespTS 3 (λ _, alone true) (NewTimestampOracle None) = Returns (r, err) w' ∧
    same_but_counter (NewTimestampOracle None) w'.
Proof.
  assert (pointer_ok (NewTimestampOracle None)) as Hok by (left; reflexivity).
  split; [exact Hok|].
  exact (GetRespTS_touches_only_the_counter 3 true (NewTimestampOracle None) Hok).
Defined.

(** A call in a process that has just started and holds no lease. *)
Lemma GetRespTS_without_snapshot_witness :
  unsynced (NewTimestampOracle None) ∧
  GetRespTS 1 (λ _, alone false) (NewTimestampOracle None) =
    Returns (mkTimestamp 0 0,
             Some (errors_New "can not get timestamp, may be not leader"))
      (NewTimestampOracle None).
Proof.
  assert (unsynced (NewTimestampOracle None)) as Hun by (left; reflexivity).
  split; [exact Hun|].
  exact (GetRespTS_without_snapshot 1 false (NewTimestampOracle None) Hun
           ltac:(discriminate)).
Defined.

(** A request for all the [2^18] values of the snapshot of S3. *)
Lemma GetRespTS_exhausted_witness :
  GetRespTS 262144 (λ _, alone true) world_S3 =
    Returns (mkTimestamp 5000 2621440, Some (errors_New "can not get timestamp"))
      (set_objects [mkObject (5000 * Millisecond) 2621440] world_S3).
Proof.
  exact (GetRespTS_exhausted 262144 true world_S3 0%nat (mkObject (5000 * Millisecond) 0)
           eq_refl eq_refl ltac:(vm_compute; discriminate) eq_refl
           ltac:(vm_compute; discriminate) eq_refl).
Defined.

(** Five timestamps from the snapshot of S3. *)
Lemma GetRespTS_logical_range_witness :
  snapshot world_S3 = Some (mkObject (5000 * Millisecond) 0) ∧
  0 + 5 ≤ Logical (mkTimestamp 5000 5) < maxLogical.
Proof.
  split; [reflexivity|].
  assert (int64_counters world_S3) as Hint.
  { apply int64_counters_Forall. repeat constructor; vm_compute; discriminate. }
  exact (proj1 (proj2 (GetRespTS_logical_range 5 true world_S3 _ (mkTimestamp 5000 5)
                         (mkObject (5000 * Millisecond) 0)
                         ltac:(split; reflexivity) Hint eq_refl
                         ltac:(vm_compute; discriminate) eq_refl
                         ltac:(vm_compute; discriminate)))).
Defined.

(** Five timestamps, then three, from the snapshot of S3. *)
Lemma GetRespTS_adjacent_ranges_witness :
  ∃ r1 w1 r2 w2,
    GetRespTS 5 (λ _, alone true) world_S3 = Returns (r1, None) w1 ∧
    GetRespTS 3 (λ _, alone true) w1 = Returns (r2, None) w2 ∧
    Logical r1 = 0 + 5 ∧ Logical r2 - 3 = Logical r1.
Proof.
  destruct (GetRespTS_adjacent_ranges 5 3 world_S3 0%nat (mkObject (5000 * Millisecond) 0)
              1%nat eq_refl eq_refl ltac:(vm_compute; discriminate) eq_refl
              eq_refl eq_refl ltac:(vm_compute; discriminate) eq_refl)
    as (r1 & w1 & r2 & w2 & H1 & H2 & _ & _ & HL1 & HL2 & _).
  exists r1, w1, r2, w2. split; [exact H1|]. split; [exact H2|].
  split; [exact HL1|exact HL2].
Defined.

(** A tick at 5060 ms on the world of S3, the key being 2940 ms ahead. *)
Lemma UpdateTimestamp_inside_window_witness :
  lastSavedTime world_S3 = Some (8000 * Millisecond) ∧
  ∃ w', UpdateTimestamp (3 * Second) (5060 * Millisecond) (CommitResp false) world_S3 =
          Returns None w' ∧
        snapshot w' = Some (mkObject (5060 * Millisecond) 0) ∧
        etcd_timestamp w' = etcd_timestamp world_S3.
Proof.
  split; [reflexivity|].
  destruct (UpdateTimestamp_inside_window (3 * Second) (5060 * Millisecond)
              (CommitResp false) world_S3 (mkObject (5000 * Millisecond) 0)
              (8000 * Millisecond) (5060 * Millisecond) eq_refl eq_refl eq_refl
              (or_introl eq_refl) eq_refl)
    as (w' & Hrun & Hsnap & Hkey & _).
  exists w'. split; [exact Hrun|]. split; [exact Hsnap|exact Hkey].
Defined.

(** Scenario S3 again: the last values of 5000 ms, a tick, the first of
    5001 ms. *)
Lemma timestamps_increase_witness :
  ∃ w1 w2 w3,
    GetRespTS 262140 (λ _, alone true) world_S3 =
      Returns (mkTimestamp 5000 262140, None) w1 ∧
    runOps (3 * Second) [OpUpdate (5000 * Millisecond) (CommitResp true)] w1 =
      Returns () w2 ∧
    GetRespTS 10 (λ _, alone true) w2 = Returns (mkTimestamp 5001 10, None) w3 ∧
    ts_lt (mkTimestamp 5000 262140) (mkTimestamp 5001 10).
Proof.
  assert (updateTimestampGuard ≤ 3 * Second) as Hwin by (vm_compute; discriminate).
  assert (inTerm (3 * Second) world_S3) as Hterm.
  { exists (mkObject (5000 * Millisecond) 0), (8000 * Millisecond).
    repeat split; try reflexivity; vm_compute; discriminate. }
  assert (int64_counters world_S3) as Hint.
  { apply int64_counters_Forall. repeat constructor; vm_compute; discriminate. }
  do 3 eexists.
  assert (∀ A B C D : Prop, A → B → C → (A → B → C → D) → A ∧ B ∧ C ∧ D) as Hand by tauto.
  apply Hand; [vm_compute; reflexivity|vm_compute; reflexivity|vm_compute; reflexivity|].
  intros H1 Hops H2.
  exact (timestamps_increase (3 * Second) true true 262140 10 _ world_S3 _ _ _ _ _
           (mkObject (5000 * Millisecond) 0) Hwin Hterm Hint eq_refl
           ltac:(vm_compute; discriminate) ltac:(split; reflexivity)
           ltac:(split; reflexivity) H1 Hops H2 ltac:(vm_compute; discriminate)).
Defined.

(** The leader of S3 is replaced while the clock of its successor says
    4000 ms. *)
Lemma SyncTimestamp_starts_above_previous_term_witness :
  inTerm (3 * Second) world_S3 ∧
  ∃ wB oB,
    SyncTimestamp (3 * Second) 2%nat None (4000 * Millisecond) (CommitResp true)
      (NewTimestampOracle (etcd_timestamp world_S3)) = Returns None wB ∧
    snapshot wB = Some oB ∧
    physical (mkObject (5000 * Millisecond) 0) + 2 * updateTimestampGuard ≤ physical oB.
Proof.
  assert (updateTimestampGuard ≤ 3 * Second) as Hwin by (vm_compute; discriminate).
  assert (inTerm (3 * Second) world_S3) as Hterm.
  { exists (mkObject (5000 * Millisecond) 0), (8000 * Millisecond).
    repeat split; try reflexivity; vm_compute; discriminate. }
  split; [exact Hterm|].
  destruct (proj1 (SyncTimestamp_starts_above_previous_term (3 * Second) world_S3
                     (mkObject (5000 * Millisecond) 0) 2%nat (4000 * Millisecond)
                     Hwin Hterm eq_refl ltac:(vm_compute; discriminate)))
    as (wB & oB & Hrun & Hsnap & _ & Hge & _).
  exists wB, oB. split; [exact Hrun|]. split; [exact Hsnap|exact Hge].
Defined.

(** The leader of S3 loses its term; the tick at 6000 ms still runs. *)
Lemma UpdateTimestamp_rearms_after_reset_witness :
  unarmed (set_leadership None (published ZeroTime world_S3)) ∧
  ∃ w1 w2,
    UpdateTimestamp (3 * Second) (6000 * Millisecond) (CommitResp true)
      (set_leadership None (published ZeroTime world_S3)) = Returns None w1 ∧
    GetRespTS 7 (λ _, alone true) w1 =
      Returns (mkTimestamp 0 0,
               Some (errors_New "alloc timestamp failed, lease expired")) w2 ∧
    snapshot w2 = Some (mkObject (6000 * Millisecond) 7).
Proof.
  assert (unarmed (set_leadership None (published ZeroTime world_S3))) as Hun.
  { split; [reflexivity|]. exists (mkObject ZeroTime 0). split; reflexivity. }
  split; [exact Hun|].
  destruct (UpdateTimestamp_rearms_after_reset (3 * Second) (6000 * Millisecond)
              (CommitResp true) 7 true _ (8000 * Millisecond) Hun eq_refl eq_refl eq_refl
              ltac:(split; reflexivity))
    as (w1 & w2 & Hrun & _ & _ & Hget & Hsnap).
  exists w1, w2. split; [exact Hrun|]. split; [exact Hget|exact Hsnap].
Defined.
